(** * truncate_messages (src/utils.py) : a shallow embedding

    The function turns a conversation history into a bounded window in
    four stages, each modelled below as it is written in the source:
    - grouping   (lines 58-116): a left-to-right scan with the state
      [sequences], [current_sequence], [pending_tool_call_ids];
    - selection  (lines 118-161): a backward scan over the groups with
      [continue] and [break], then a [reverse];
    - validation (lines 163-298): an index loop over [messages_to_add]
      whose inner [while] loops are modelled as modes of one scan;
    - final safety pass (lines 300-440): the same, with the look-ahead
      of its "double check" computed on the rest of the list. *)

From stdpp Require Import base list gmap sets strings.

Set Warnings "-abstract-large-number".

(** ** Data model *)

(** A tool call, as the source reads it: either an object carrying an
    [id] attribute (read by [hasattr(tool_call, 'id')]) or a mapping read
    with [tool_call.get('id')].  A missing id ([None]) and an empty id are
    both falsy in Python; both are the empty string here. *)
Inductive tool_call :=
| ToolCallObj (id : string)
| ToolCallDict (id : string).

(** The four message classes the source distinguishes with [isinstance].
    [content] is the [str] content, or the [str()] rendering of a list
    content (line 41); only its length is read. *)
Inductive message :=
| SystemMessage (content : string)
| HumanMessage (content : string)
| AIMessage (content : string) (tool_calls : list tool_call)
| ToolMessage (content : string) (tool_call_id : string).

Definition message_content (m : message) : string :=
  match m with
  | SystemMessage c | HumanMessage c | AIMessage c _ | ToolMessage c _ => c
  end.

(** Python truthiness of a string. *)
Definition truthy (s : string) : bool := bool_decide (s ≠ ""%string).

Definition is_system (m : message) : bool :=
  match m with SystemMessage _ => true | _ => false end.

Definition is_tool (m : message) : bool :=
  match m with ToolMessage _ _ => true | _ => false end.

(** [isinstance(msg, AIMessage) and hasattr(msg, 'tool_calls') and msg.tool_calls] *)
Definition has_tool_calls (m : message) : bool :=
  match m with AIMessage _ (_ :: _) => true | _ => false end.

Definition chars_per_token : nat := 4.

(** [get_message_tokens]: [len(content) // chars_per_token if content else 0]. *)
Definition get_message_tokens (m : message) : nat :=
  String.length (message_content m) / chars_per_token.

(** Ids read from a list of tool calls by a given accessor, keeping only
    the truthy ones (the [if tool_call_id:] tests). *)
Definition id_set (f : tool_call -> string) (tcs : list tool_call) : gset string :=
  list_to_set (List.filter truthy (map f tcs)).

(** The grouping stage only reads [tool_call.id] when
    [hasattr(tool_call, 'id')] holds (lines 78-80): mappings yield nothing. *)
Definition grouping_call_id (tc : tool_call) : string :=
  match tc with ToolCallObj id => id | ToolCallDict _ => ""%string end.

(** Validation and the final pass read both shapes (lines 181-190, 326-333). *)
Definition call_id (tc : tool_call) : string :=
  match tc with ToolCallObj id | ToolCallDict id => id end.

Definition required_ids (tcs : list tool_call) : gset string := id_set call_id tcs.

(** ** Grouping (lines 58-116) *)

Record group_state := GroupState {
  sequences : list (list message * bool);
  current_sequence : list message;
  pending_tool_call_ids : gset string
}.

Definition group_init : group_state := GroupState [] [] ∅.

(** [if current_sequence: sequences.append((current_sequence, len(pending) == 0));
     current_sequence = []; pending_tool_call_ids = set()] *)
Definition flush (st : group_state) : group_state :=
  match current_sequence st with
  | [] => st
  | cur =>
      GroupState (sequences st ++ [(cur, bool_decide (pending_tool_call_ids st = ∅))]) [] ∅
  end.

Definition group_step (st : group_state) (m : message) : group_state :=
  match m with
  | AIMessage _ tcs =>
      let st1 := flush st in
      match tcs with
      | _ :: _ =>
          GroupState (sequences st1) (current_sequence st1 ++ [m])
            (pending_tool_call_ids st1 ∪ id_set grouping_call_id tcs)
      | [] =>
          GroupState (sequences st1 ++ [([m], true)]) (current_sequence st1)
            (pending_tool_call_ids st1)
      end
  | ToolMessage _ id =>
      if truthy id && bool_decide (id ∈ pending_tool_call_ids st) then
        GroupState (sequences st) (current_sequence st ++ [m])
          (pending_tool_call_ids st ∖ {[id]})
      else
        (* orphan: save the current sequence, then the orphan on its own;
           the reset of lines 100-101 is unconditional *)
        GroupState (sequences (flush st) ++ [([m], true)]) [] ∅
  | _ =>
      let st1 := flush st in
      GroupState (sequences st1 ++ [([m], true)]) (current_sequence st1)
        (pending_tool_call_ids st1)
  end.

Definition group_messages (msgs : list message) : list (list message * bool) :=
  sequences (flush (foldl group_step group_init msgs)).

(** ** Selection (lines 118-161) *)

Record sel_state := SelState {
  messages_to_add : list message;
  total_tokens_approx : nat;
  message_count : nat
}.

Inductive loop_ctl (A : Type) := Continue (a : A) | Break (a : A).
Arguments Continue {A} a.
Arguments Break {A} a.

Definition ctl_state {A} (c : loop_ctl A) : A :=
  match c with Continue a | Break a => a end.

Definition per_message_ceiling : nat := 30000.

Definition seq_tokens (seq : list message) : nat :=
  sum_list (map get_message_tokens seq).

(** One iteration of [for seq, is_complete in reversed(sequences)]. *)
Definition select_step (max_messages max_tokens_approx : nat)
    (st : sel_state) (g : list message * bool) : loop_ctl sel_state :=
  let '(seq, is_complete) := g in
  if negb is_complete && existsb has_tool_calls seq then Continue st
  else if existsb (fun m => per_message_ceiling <? get_message_tokens m) seq
          && negb (bool_decide (messages_to_add st = [])) then Continue st
  else if (message_count st + length seq <=? max_messages)
          && (total_tokens_approx st + seq_tokens seq <=? max_tokens_approx) then
    Continue (SelState (messages_to_add st ++ seq)
                       (total_tokens_approx st + seq_tokens seq)
                       (message_count st + length seq))
  else Break st.

Fixpoint select_loop (max_messages max_tokens_approx : nat)
    (st : sel_state) (gs : list (list message * bool)) : loop_ctl sel_state :=
  match gs with
  | [] => Continue st
  | g :: gs' =>
      match select_step max_messages max_tokens_approx st g with
      | Continue st' => select_loop max_messages max_tokens_approx st' gs'
      | Break st' => Break st'
      end
  end.

(** ** Validation (lines 163-298) *)

(** [{msg.tool_call_id: msg for ToolMessages with a truthy id}] *)
Definition tool_messages_by_id (l : list message) : gmap string message :=
  foldl (fun mp m =>
           match m with
           | ToolMessage _ id => if truthy id then <[id := m]> mp else mp
           | _ => mp
           end) ∅ l.

(** Where the index loop stands: at the top of the outer [while], inside
    the inner loop skipping the tool messages of a dropped assistant
    message (lines 207-217), or inside the inner loop copying the tool
    messages of a kept one (lines 227-252). *)
Inductive vmode :=
| VNormal
| VSkipping (required : gset string)
| VIncluding (required included : gset string).

(** The body of the outer loop at index [i]. *)
Definition validate_normal (keys : gset string) (m : message) : list message * vmode :=
  match m with
  | AIMessage _ ((_ :: _) as tcs) =>
      let req := required_ids tcs in
      if bool_decide (req = ∅) then ([m], VNormal)
      else if negb (bool_decide (req ∖ keys = ∅)) then ([], VSkipping req)
      else ([m], VIncluding req ∅)
  | ToolMessage _ _ =>
      (* an orphan: both branches of [if not is_handled] do [i += 1] *)
      ([], VNormal)
  | _ => ([m], VNormal)
  end.

Definition validate_step (keys : gset string) (mode : vmode) (m : message)
    : list message * vmode :=
  match mode with
  | VNormal => validate_normal keys m
  | VSkipping req =>
      match m with
      | ToolMessage _ id =>
          if truthy id && bool_decide (id ∈ req) then ([], VSkipping req)
          else validate_normal keys m
      | _ => validate_normal keys m
      end
  | VIncluding req inc =>
      match m with
      | ToolMessage _ id =>
          if truthy id && bool_decide (id ∈ req) then
            if bool_decide (id ∉ inc) then ([m], VIncluding req ({[id]} ∪ inc))
            else ([], VIncluding req inc)
          else validate_normal keys m
      | _ => validate_normal keys m
      end
  end.

Fixpoint validate_loop (keys : gset string) (mode : vmode) (l : list message)
    : list message :=
  match l with
  | [] => []
  | m :: tl =>
      let r := validate_step keys mode m in
      r.1 ++ validate_loop keys r.2 tl
  end.

Definition validate (messages_to_add : list message) : list message :=
  validate_loop (dom (tool_messages_by_id messages_to_add)) VNormal messages_to_add.

(** ** Final safety pass (lines 300-431) *)

Inductive fmode :=
| FNormal
| FSkipping (required : gset string)
| FIncluding (required included : gset string).

(** The "double check" of lines 342-354: the ids of [required] found
    among the tool messages that follow, up to the first assistant,
    human or system message. *)
Fixpoint tool_messages_found (req : gset string) (l : list message) : gset string :=
  match l with
  | ToolMessage _ id :: l' =>
      (if truthy id && bool_decide (id ∈ req) then {[id]} else ∅)
        ∪ tool_messages_found req l'
  | _ => ∅
  end.

(** The body of the outer loop at index [i]; [tl] is the list after [i]. *)
Definition final_normal (keys : gset string) (m : message) (tl : list message)
    : list message * fmode :=
  match m with
  | AIMessage _ ((_ :: _) as tcs) =>
      let req := required_ids tcs in
      let all_present :=
        bool_decide (req ≠ ∅) && bool_decide (0 < size req) && bool_decide (req ⊆ keys) in
      if all_present then
        if bool_decide (tool_messages_found req tl = req) then ([m], FIncluding req ∅)
        else ([], FSkipping req)
      else ([], FSkipping req)
  | ToolMessage _ _ =>
      (* both branches of [if not is_included] do [i += 1] *)
      ([], FNormal)
  | _ => ([m], FNormal)
  end.

Definition final_step (keys : gset string) (mode : fmode) (m : message) (tl : list message)
    : list message * fmode :=
  match mode with
  | FNormal => final_normal keys m tl
  | FSkipping req =>
      match m with
      | ToolMessage _ id =>
          if truthy id && bool_decide (id ∈ req) then ([], FSkipping req)
          else final_normal keys m tl
      | _ => final_normal keys m tl
      end
  | FIncluding req inc =>
      match m with
      | ToolMessage _ id =>
          if truthy id && bool_decide (id ∈ req) && bool_decide (id ∉ inc) then
            ([m], FIncluding req ({[id]} ∪ inc))
          else final_normal keys m tl
      | _ => final_normal keys m tl
      end
  end.

Fixpoint final_loop (keys : gset string) (mode : fmode) (l : list message)
    : list message :=
  match l with
  | [] => []
  | m :: tl =>
      let r := final_step keys mode m tl in
      r.1 ++ final_loop keys r.2 tl
  end.

Definition final_clean (messages_to_process : list message) : list message :=
  final_loop (dom (tool_messages_by_id messages_to_process)) FNormal messages_to_process.

(** ** The whole function *)

Definition truncate_messages (messages : list message) (system_message : option string)
    (max_messages max_tokens_approx : nat) : list message :=
  let result := match system_message with Some s => [SystemMessage s] | None => [] end in
  let system_tokens :=
    match system_message with Some s => get_message_tokens (SystemMessage s) | None => 0 end in
  let filtered_messages := List.filter (fun m => negb (is_system m)) messages in
  match filtered_messages with
  | [] => result
  | _ :: _ =>
      let sequences := group_messages filtered_messages in
      let sel := select_loop max_messages max_tokens_approx
                   (SelState [] system_tokens 0) (rev sequences) in
      let messages_to_add := rev (messages_to_add (ctl_state sel)) in
      let result := result ++ validate messages_to_add in
      let '(system_msg_in_result, messages_to_process) :=
        match result with
        | SystemMessage c :: rest => (Some (SystemMessage c), rest)
        | _ => (None, result)
        end in
      let final_cleaned_messages := final_clean messages_to_process in
      match system_msg_in_result with
      | Some s => s :: final_cleaned_messages
      | None =>
          match system_message with
          | Some s => SystemMessage s :: final_cleaned_messages
          | None => final_cleaned_messages
          end
      end
  end.

(** ** Shapes of the intermediate and final windows *)

Definition msg_tool_id (m : message) : string :=
  match m with ToolMessage _ id => id | _ => ""%string end.

Definition tool_ids (ts : list message) : gset string := list_to_set (map msg_tool_id ts).

(** Turns that form a group of their own everywhere in the code. *)
Definition plain (m : message) : Prop :=
  match m with
  | SystemMessage _ | HumanMessage _ | AIMessage _ [] => True
  | _ => False
  end.

(** A run of tool messages with distinct truthy ids, all in [req], none
    in [inc]. *)
Inductive tool_run (req : gset string) : gset string -> list message -> Prop :=
| tool_run_nil inc : tool_run req inc []
| tool_run_cons inc c id ts :
    id ≠ ""%string -> id ∈ req -> id ∉ inc ->
    tool_run req ({[id]} ∪ inc) ts -> tool_run req inc (ToolMessage c id :: ts).

(** What the validation stage can produce: plain turns, assistant turns
    whose tool calls carry no id, and assistant turns followed by a run of
    their own tool messages. *)
Inductive validated_shape : list message -> Prop :=
| vs_nil : validated_shape []
| vs_plain m l : plain m -> validated_shape l -> validated_shape (m :: l)
| vs_noids c tcs l :
    tcs ≠ [] -> required_ids tcs = ∅ -> validated_shape l ->
    validated_shape (AIMessage c tcs :: l)
| vs_block c tcs ts l :
    tcs ≠ [] -> required_ids tcs ≠ ∅ -> tool_run (required_ids tcs) ∅ ts ->
    validated_shape l -> validated_shape (AIMessage c tcs :: ts ++ l).

(** A contract-valid window: every assistant turn with tool calls is
    followed by exactly one tool message for each of its ids. *)
Inductive window_ok : list message -> Prop :=
| wok_nil : window_ok []
| wok_plain m l : plain m -> window_ok l -> window_ok (m :: l)
| wok_block c tcs ts l :
    tcs ≠ [] -> required_ids tcs ≠ ∅ -> tool_run (required_ids tcs) ∅ ts ->
    tool_ids ts = required_ids tcs -> window_ok l ->
    window_ok (AIMessage c tcs :: ts ++ l).

Definition starts_with_tool (l : list message) : bool :=
  match l with ToolMessage _ _ :: _ => true | _ => false end.

(** The system turn the function puts in front, and its estimated size. *)
Definition system_prefix (system_message : option string) : list message :=
  match system_message with Some s => [SystemMessage s] | None => [] end.

Definition system_tokens (system_message : option string) : nat :=
  match system_message with Some s => get_message_tokens (SystemMessage s) | None => 0 end.

(** The messages the selection stage hands to validation. *)
Definition selected (messages : list message) (system_message : option string)
    (max_messages max_tokens_approx : nat) : list message :=
  rev (messages_to_add (ctl_state
    (select_loop max_messages max_tokens_approx
       (SelState [] (system_tokens system_message) 0)
       (rev (group_messages (List.filter (fun m => negb (is_system m)) messages)))))).

(** What a grouping state has consumed so far. *)
Definition group_covers (st : group_state) : list message :=
  concat (map fst (sequences st)) ++ current_sequence st.

(** The selection loop's bookkeeping: the running counters match the
    accumulated messages, the count stays within [N], and once something
    is accepted the running size (starting from the system turn's) stays
    within [T]. *)
Definition sel_inv (N T s0 : nat) (st : sel_state) : Prop :=
  message_count st = length (messages_to_add st) ∧
  total_tokens_approx st = s0 + seq_tokens (messages_to_add st) ∧
  length (messages_to_add st) ≤ N ∧
  (messages_to_add st = [] ∨ total_tokens_approx st ≤ T).

(** The run of tool messages at the head of a list. *)
Fixpoint tool_prefix (l : list message) : list message :=
  match l with
  | (ToolMessage _ _ as m) :: l' => m :: tool_prefix l'
  | _ => []
  end.

(** ** Auxiliary definitions for the statements *)

(** A string of [n] characters. *)
Fixpoint rep (n : nat) : string :=
  match n with 0 => ""%string | S n' => String Ascii.zero (rep n') end.

(** A plain user or assistant turn, with no tool call. *)
Definition simple_turn (m : message) : bool :=
  match m with HumanMessage _ | AIMessage _ [] => true | _ => false end.

(** A turn that the selection loop does not regard as oversized (line 145). *)
Definition within_ceiling (m : message) : bool := get_message_tokens m <=? per_message_ceiling.

#[global] Instance tool_call_eq_dec : EqDecision tool_call.
Proof. solve_decision. Defined.

#[global] Instance message_eq_dec : EqDecision message.
Proof. solve_decision. Defined.

(** Whether the first list is an order-preserving subsequence of the second. *)
Fixpoint subseqb (l1 l2 : list message) : bool :=
  match l2 with
  | [] => match l1 with [] => true | _ => false end
  | y :: l2' =>
      match l1 with
      | [] => true
      | x :: l1' => (bool_decide (x = y) && subseqb l1' l2') || subseqb l1 l2'
      end
  end.

(** ** The list objects of a call

    To state what the function does to its arguments, the Python lists it
    touches are cells of a heap of list objects, threaded through a state
    monad.  [truncate_messages_heap] performs the allocations and writes of
    the source on these cells, in order: it reads [messages]; creates
    [result] (line 45) and appends the system message to it (line 47);
    creates [filtered_messages] (line 53) and returns [result] when it is
    empty (line 56); creates [messages_to_add] (line 119), filled by
    [extend] and [reverse] (lines 153, 161); creates [validated_messages] (line 172);
    extends [result] (line 298); creates [final_cleaned_messages] (line
    302); binds [messages_to_process] to [result] itself or to the new list
    [result[1:]] (lines 307-310); fills [final_cleaned_messages]; and
    returns a new list [[system] + final_cleaned_messages] or
    [final_cleaned_messages] itself (lines 433-440).  The lists of the
    grouping stage ([current_sequence] and the lists inside [sequences])
    are also created inside the call and only read afterwards; their
    contents are the values of [group_messages]. *)
Definition ST (A : Type) : Type :=
  gmap positive (list message) -> A * gmap positive (list message).

#[global] Instance st_ret : MRet ST := fun A a h => (a, h).
#[global] Instance st_bind : MBind ST := fun A B f m h => let '(a, h') := m h in f a h'.

Definition load (l : positive) : ST (list message) := fun h => (default [] (h !! l), h).

Definition alloc (v : list message) : ST positive :=
  fun h => let l := fresh (dom h) in (l, <[l := v]> h).

Definition store (l : positive) (v : list message) : ST unit := fun h => (tt, <[l := v]> h).

Definition truncate_messages_heap (messages : positive) (system_message : option string)
    (max_messages max_tokens_approx : nat) : ST positive :=
  msgs ← load messages;
  result ← alloc [];
  _ ← (match system_message with
        | Some s => store result [SystemMessage s]
        | None => mret tt
        end);
  let filtered := List.filter (fun m => negb (is_system m)) msgs in
  filtered_messages ← alloc filtered;
  match filtered with
  | [] => mret result
  | _ :: _ =>
      let to_add := rev (messages_to_add (ctl_state
                      (select_loop max_messages max_tokens_approx
                         (SelState [] (system_tokens system_message) 0)
                         (rev (group_messages filtered))))) in
      messages_to_add ← alloc [];
      _ ← store messages_to_add to_add;
      let validated := validate to_add in
      validated_messages ← alloc validated;
      let r := system_prefix system_message ++ validated in
      _ ← store result r;
      final_cleaned_messages ← alloc [];
      let '(system_msg_in_result, rest) :=
        match r with
        | SystemMessage c :: rest => (Some (SystemMessage c), Some rest)
        | _ => (None, None)
        end in
      messages_to_process ← (match rest with Some rest => alloc rest | None => mret result end);
      let mp := match rest with Some rest => rest | None => r end in
      _ ← store final_cleaned_messages (final_clean mp);
      match system_msg_in_result with
      | Some s => alloc (s :: final_clean mp)
      | None =>
          match system_message with
          | Some s => alloc (SystemMessage s :: final_clean mp)
          | None => mret final_cleaned_messages
          end
      end
  end.

(** Every cell of [h0] holds the same list in [h]. *)
Definition keeps (h0 h : gmap positive (list message)) : Prop :=
  ∀ l, l ∈ dom h0 -> h !! l = h0 !! l.

(** ** The researcher node (src/researcher.py, lines 174-222)

    The node calls [truncate_messages] with [max_messages=10] and
    [max_tokens_approx=100000], then filters the result once more before
    invoking the model (lines 185-219).  The filter reads the ids of a
    tool call only through [hasattr(t, "id") and t.id], as the grouping
    stage does. *)

(** The inner [for j in range(i + 1, len(truncated_messages))] loop
    (lines 198-205) on the messages after index [i], the first of which
    has index [j]: it stops at the first assistant, human or system
    message and returns [found_ids] and [tool_indices], each index paired
    with the message [truncated_messages[idx]] it designates. *)
Fixpoint researcher_scan (req : gset string) (j : nat) (l : list message)
    : gset string * list (nat * message) :=
  match l with
  | (ToolMessage _ id as next_msg) :: l' =>
      let '(found_ids, tool_indices) := researcher_scan req (S j) l' in
      if bool_decide (id ∈ req) then ({[id]} ∪ found_ids, (j, next_msg) :: tool_indices)
      else (found_ids, tool_indices)
  | _ => (∅, [])
  end.

(** The outer [for i, msg in enumerate(truncated_messages)] loop (lines
    189-219) from index [i] on, with the current [skip_until_index]. *)
Fixpoint researcher_loop (i : nat) (skip_until_index : Z) (l : list message)
    : list message :=
  match l with
  | [] => []
  | msg :: tl =>
      if (Z.of_nat i <=? skip_until_index)%Z then researcher_loop (S i) skip_until_index tl
      else
        match msg with
        | AIMessage _ ((_ :: _) as tcs) =>
            let req := id_set grouping_call_id tcs in
            if bool_decide (req = ∅) then msg :: researcher_loop (S i) skip_until_index tl
            else
              let '(found_ids, tool_indices) := researcher_scan req (S i) tl in
              let skip' :=
                match tool_indices with
                | [] => skip_until_index
                | _ => Z.of_nat (list_max (map fst tool_indices))
                end in
              if bool_decide (found_ids = req) then
                msg :: map snd tool_indices ++ researcher_loop (S i) skip' tl
              else researcher_loop (S i) skip' tl
        | _ => msg :: researcher_loop (S i) skip_until_index tl
        end
  end.

(** [safe_messages], computed from [truncated_messages]. *)
Definition researcher_safe_messages (truncated_messages : list message) : list message :=
  researcher_loop 0 (-1)%Z truncated_messages.

(** The list handed to [llm_with_tools.invoke] (line 221); the system
    prompt is the text [researcher_prompt.format(...)] of line 176. *)
Definition researcher_messages (messages : list message) (system_prompt : string)
    : list message :=
  researcher_safe_messages (truncate_messages messages (Some system_prompt) 10 100000).

(** ** Further auxiliary definitions *)

(** A turn that is neither a tool message nor an assistant turn with
    tool calls. *)
Definition is_plain_turn (m : message) : bool :=
  match m with
  | SystemMessage _ | HumanMessage _ | AIMessage _ [] => true
  | _ => false
  end.

Definition is_obj_call (tc : tool_call) : bool :=
  match tc with ToolCallObj _ => true | ToolCallDict _ => false end.

(** An assistant turn whose tool calls are all objects or all mappings. *)
Definition uniform_calls (m : message) : bool :=
  match m with
  | AIMessage _ tcs => forallb is_obj_call tcs || forallb (fun tc => negb (is_obj_call tc)) tcs
  | _ => true
  end.

(** The groups the grouping stage can form: one turn without tool calls,
    complete; or an assistant turn with tool calls followed by results
    with distinct ids among its attribute ids, complete exactly when all
    of these ids are answered. *)
Definition group_ok (g : list message * bool) : Prop :=
  (g.2 = true ∧ ∃ m, g.1 = [m] ∧ has_tool_calls m = false) ∨
  (∃ c tcs ts, tcs ≠ [] ∧ g.1 = AIMessage c tcs :: ts ∧
     tool_run (id_set grouping_call_id tcs) ∅ ts ∧
     g.2 = bool_decide (tool_ids ts = id_set grouping_call_id tcs)).

(** What the grouping stage keeps pending: nothing, or an assistant
    turn with tool calls, the results with distinct ids matched to it so
    far, and the ids still unanswered. *)
Definition gcur_ok (st : group_state) : Prop :=
  (current_sequence st = [] ∧ pending_tool_call_ids st = ∅) ∨
  ∃ c tcs ts, tcs ≠ [] ∧ current_sequence st = AIMessage c tcs :: ts ∧
    tool_run (id_set grouping_call_id tcs) ∅ ts ∧
    pending_tool_call_ids st = id_set grouping_call_id tcs ∖ tool_ids ts.

(** A group the selection loop may accept: complete, or without tool calls. *)
Definition acceptable (g : list message * bool) : Prop :=
  g.2 = true ∨ existsb has_tool_calls g.1 = false.

(** * Proofs *)

Module Shape.

Ltac plain_head :=
  match goal with Hp : plain ?m |- _ => destruct m; simpl in *; done end.

Lemma validated_shape_head l : validated_shape l -> starts_with_tool l = false.
Proof. intros H; inversion H; subst; simpl; try done. plain_head. Qed.

Lemma window_ok_head l : window_ok l -> starts_with_tool l = false.
Proof. intros H; inversion H; subst; simpl; try done. plain_head. Qed.

(** The property each mode of the validation scan guarantees for the
    rest of its output. *)
Definition vmode_post (mode : vmode) (out : list message) : Prop :=
  match mode with
  | VNormal | VSkipping _ => validated_shape out
  | VIncluding req inc =>
      ∃ ts rest, out = ts ++ rest ∧ tool_run req inc ts ∧ validated_shape rest
  end.

Lemma validate_normal_shape keys m tl :
  (∀ mode, vmode_post mode (validate_loop keys mode tl)) ->
  validated_shape ((validate_normal keys m).1 ++ validate_loop keys (validate_normal keys m).2 tl).
Proof.
  intros IH. destruct m as [c|c|c [|tc tcs]|c id]; simpl.
  - apply vs_plain; [done|]. apply (IH VNormal).
  - apply vs_plain; [done|]. apply (IH VNormal).
  - apply vs_plain; [done|]. apply (IH VNormal).
  - case_bool_decide as Hemp; simpl.
    + apply vs_noids; [done|done|]. apply (IH VNormal).
    + destruct (negb _); simpl.
      * apply (IH (VSkipping _)).
      * destruct (IH (VIncluding (required_ids (tc :: tcs)) ∅)) as (ts & rest & -> & Hrun & Hrest).
        by apply vs_block.
  - apply (IH VNormal).
Qed.

Lemma validate_loop_post keys l : ∀ mode, vmode_post mode (validate_loop keys mode l).
Proof.
  induction l as [|m tl IH]; intros mode.
  - destruct mode; simpl; [constructor|constructor|]. exists [], []. split_and!; constructor.
  - assert (Hn := validate_normal_shape keys m tl IH).
    assert (Hv : ∀ req inc, vmode_post (VIncluding req inc)
              ((validate_normal keys m).1 ++ validate_loop keys (validate_normal keys m).2 tl)).
    { intros req inc. eexists [], _. split_and!; [done|constructor|exact Hn]. }
    cbn [validate_loop]. destruct mode as [|req|req inc].
    + exact Hn.
    + destruct m as [c|c|c tcs|c id]; try exact Hn.
      cbn [validate_step]. destruct (truthy id && bool_decide (id ∈ req)) eqn:E.
      * apply (IH (VSkipping req)).
      * exact Hn.
    + destruct m as [c|c|c tcs|c id]; try apply Hv.
      cbn [validate_step]. destruct (truthy id && bool_decide (id ∈ req)) eqn:E.
      * apply andb_prop in E as [Ht Hin]. unfold truthy in Ht.
        apply bool_decide_eq_true in Ht. apply bool_decide_eq_true in Hin.
        case_bool_decide as Hinc; simpl.
        -- destruct (IH (VIncluding req ({[id]} ∪ inc))) as (ts & rest & -> & Hrun & Hrest).
           exists (ToolMessage c id :: ts), rest. split_and!; [done| |done].
           by constructor.
        -- destruct (IH (VIncluding req inc)) as (ts & rest & -> & Hrun & Hrest).
           by exists ts, rest.
      * apply Hv.
Qed.

Lemma validate_shape l : validated_shape (validate l).
Proof. apply (validate_loop_post _ l VNormal). Qed.

End Shape.

Module Final.
Import Shape.

Lemma final_skipping_nontool keys req l :
  starts_with_tool l = false -> final_loop keys (FSkipping req) l = final_loop keys FNormal l.
Proof. destruct l as [|m tl]; [done|]. by destruct m. Qed.

Lemma final_including_nontool keys req inc l :
  starts_with_tool l = false -> final_loop keys (FIncluding req inc) l = final_loop keys FNormal l.
Proof. destruct l as [|m tl]; [done|]. by destruct m. Qed.

Lemma tool_run_truthy (req : gset string) (id : string) :
  id ≠ ""%string -> id ∈ req -> truthy id && bool_decide (id ∈ req) = true.
Proof. intros H1 H2. unfold truthy. by rewrite !bool_decide_eq_true_2. Qed.

Lemma final_skipping_run keys req inc ts l :
  tool_run req inc ts -> starts_with_tool l = false ->
  final_loop keys (FSkipping req) (ts ++ l) = final_loop keys FNormal l.
Proof.
  induction 1 as [inc|inc c id ts Hne Hin Hinc Hrun IH]; intros Hl.
  - by apply final_skipping_nontool.
  - simpl. rewrite (tool_run_truthy req id Hne Hin). simpl. by apply IH.
Qed.

Lemma final_including_run keys req inc ts l :
  tool_run req inc ts -> starts_with_tool l = false ->
  final_loop keys (FIncluding req inc) (ts ++ l) = ts ++ final_loop keys FNormal l.
Proof.
  induction 1 as [inc|inc c id ts Hne Hin Hinc Hrun IH]; intros Hl.
  - by apply final_including_nontool.
  - simpl. rewrite (tool_run_truthy req id Hne Hin).
    rewrite (bool_decide_eq_true_2 (id ∉ inc)) by done. simpl. by rewrite IH.
Qed.

Lemma found_run req inc ts l :
  tool_run req inc ts -> starts_with_tool l = false ->
  tool_messages_found req (ts ++ l) = tool_ids ts.
Proof.
  induction 1 as [inc|inc c id ts Hne Hin Hinc Hrun IH]; intros Hl.
  - destruct l as [|m tl]; [done|]. by destruct m.
  - simpl. rewrite (tool_run_truthy req id Hne Hin). rewrite IH by done.
    reflexivity.
Qed.

Lemma final_normal_plain keys m tl : plain m -> final_normal keys m tl = ([m], FNormal).
Proof. destruct m as [c|c|c [|tc tcs]|c id]; simpl; done. Qed.

Lemma final_shape keys l : validated_shape l -> window_ok (final_loop keys FNormal l).
Proof.
  induction 1 as [|m l Hp Hl IH|c tcs l Hne Hemp Hl IH|c tcs ts l Hne Hemp Hrun Hl IH].
  - constructor.
  - cbn [final_loop final_step]. rewrite final_normal_plain by done. simpl.
    by constructor.
  - destruct tcs as [|tc tcs]; [done|].
    cbn [final_loop final_step final_normal].
    rewrite (bool_decide_eq_false_2 (required_ids (tc :: tcs) ≠ ∅)) by (intros []; done).
    simpl. rewrite final_skipping_nontool by (by apply validated_shape_head). done.
  - destruct tcs as [|tc tcs]; [done|].
    assert (Hl' := validated_shape_head l Hl).
    cbn [final_loop final_step final_normal app].
    destruct (bool_decide _ && bool_decide _ && bool_decide _) eqn:Eall; simpl.
    + rewrite (found_run _ _ _ _ Hrun Hl').
      destruct (decide (tool_ids ts = required_ids (tc :: tcs))) as [Hf|Hf].
      * rewrite bool_decide_eq_true_2 by done. simpl.
        rewrite (final_including_run _ _ _ _ _ Hrun Hl').
        by constructor.
      * rewrite bool_decide_eq_false_2 by done. simpl.
        by rewrite (final_skipping_run _ _ _ _ _ Hrun Hl').
    + by rewrite (final_skipping_run _ _ _ _ _ Hrun Hl').
Qed.

Lemma final_clean_shape l : validated_shape l -> window_ok (final_clean l).
Proof. apply final_shape. Qed.

End Final.

Module Pipeline.
Import Shape Final.

Lemma truncate_window_ok msgs sysopt N T :
  window_ok (truncate_messages msgs sysopt N T).
Proof.
  unfold truncate_messages.
  destruct (List.filter _ msgs) as [|m0 fl]; [destruct sysopt; repeat constructor|].
  match goal with |- context [validate ?x] =>
    pose proof (validate_shape x) as HV; generalize dependent (validate x) end.
  intros V HV. destruct sysopt as [s|]; simpl.
  - constructor; [done|]. by apply final_clean_shape.
  - destruct V as [|m V'].
    + constructor.
    + destruct m as [c|c|c tcs|c id]; try (by apply final_clean_shape).
      constructor; [done|]. apply final_clean_shape.
      inversion HV; subst; done.
Qed.

End Pipeline.

Module Generic.

Lemma validate_step_out keys mode m :
  (validate_step keys mode m).1 = [] ∨ (validate_step keys mode m).1 = [m].
Proof.
  destruct mode; destruct m as [c|c|c [|tc tcs]|c id]; simpl;
    repeat (case_match || case_bool_decide); simpl; auto.
Qed.

Lemma validate_loop_sublist keys l : ∀ mode, validate_loop keys mode l `sublist_of` l.
Proof.
  induction l as [|m tl IH]; intros mode; [constructor|].
  cbn [validate_loop].
  destruct (validate_step_out keys mode m) as [-> | ->]; simpl.
  - by apply sublist_cons.
  - by apply sublist_skip.
Qed.

Lemma final_step_out keys mode m tl :
  (final_step keys mode m tl).1 = [] ∨ (final_step keys mode m tl).1 = [m].
Proof.
  destruct mode; destruct m as [c|c|c [|tc tcs]|c id]; simpl;
    repeat (case_match || case_bool_decide); simpl; auto.
Qed.

Lemma final_loop_sublist keys l : ∀ mode, final_loop keys mode l `sublist_of` l.
Proof.
  induction l as [|m tl IH]; intros mode; [constructor|].
  cbn [final_loop].
  destruct (final_step_out keys mode m tl) as [-> | ->]; simpl.
  - by apply sublist_cons.
  - by apply sublist_skip.
Qed.

Lemma Forall_sublist_of (P : message -> Prop) l1 l2 :
  l1 `sublist_of` l2 -> Forall P l2 -> Forall P l1.
Proof. induction 1 as [|x l1 l2 Hs IH|x l1 l2 Hs IH]; intros Hf; [done| |]; inversion Hf; subst; auto. Qed.

Lemma seq_tokens_app l1 l2 : seq_tokens (l1 ++ l2) = seq_tokens l1 + seq_tokens l2.
Proof. induction l1; simpl; [done|]. unfold seq_tokens in *. simpl. lia. Qed.

Lemma seq_tokens_rev l : seq_tokens (rev l) = seq_tokens l.
Proof.
  induction l as [|m l IH]; [done|]. simpl. rewrite seq_tokens_app, IH.
  unfold seq_tokens. simpl. lia.
Qed.

Lemma seq_tokens_sublist l1 l2 : l1 `sublist_of` l2 -> seq_tokens l1 ≤ seq_tokens l2.
Proof. induction 1; unfold seq_tokens in *; simpl; lia. Qed.

Lemma flush_covers st : group_covers (flush st) = group_covers st.
Proof.
  destruct st as [seqs [|m cur] pend]; unfold flush, group_covers; simpl; [done|].
  rewrite map_app, concat_app. simpl. by rewrite !app_nil_r.
Qed.

Lemma flush_current st : current_sequence (flush st) = [].
Proof. by destruct st as [seqs [|m cur] pend]. Qed.

Lemma group_step_covers st m : group_covers (group_step st m) = group_covers st ++ [m].
Proof.
  destruct st as [seqs [|x cur] pend];
    destruct m as [c|c|c [|tc tcs]|c id]; unfold group_step, flush, group_covers; simpl;
    try destruct (truthy id && _); simpl;
    rewrite ?map_app, ?concat_app; simpl; rewrite ?app_nil_r, <- ?app_assoc; done.
Qed.

Lemma group_messages_concat l : concat (map fst (group_messages l)) = l.
Proof.
  unfold group_messages.
  assert (H : ∀ st, group_covers (foldl group_step st l) = group_covers st ++ l).
  { induction l as [|m l IH]; intros st; simpl; [by rewrite app_nil_r|].
    rewrite IH, group_step_covers. by rewrite <- app_assoc. }
  pose proof (H group_init) as Hg. rewrite <- flush_covers in Hg.
  unfold group_covers in Hg. rewrite flush_current, app_nil_r in Hg. exact Hg.
Qed.

Lemma select_step_Forall (P : message -> Prop) N T st seq c :
  Forall P (messages_to_add st) -> Forall P seq ->
  Forall P (messages_to_add (ctl_state (select_step N T st (seq, c)))).
Proof.
  intros Hst Hseq. unfold select_step.
  repeat (case_match; simpl; try done). apply Forall_app. by split.
Qed.

Lemma select_loop_Forall (P : message -> Prop) N T st gs :
  Forall P (messages_to_add st) -> Forall (fun g => Forall P g.1) gs ->
  Forall P (messages_to_add (ctl_state (select_loop N T st gs))).
Proof.
  revert st. induction gs as [|[seq c] gs IH]; intros st Hst Hgs; cbn [select_loop]; [done|].
  inversion Hgs as [|? ? Hg Hgs']; subst.
  pose proof (select_step_Forall P N T st seq c Hst Hg) as Hs.
  destruct (select_step N T st (seq, c)); cbn [ctl_state] in *; [by apply IH|done].
Qed.

Lemma groups_Forall (P : message -> Prop) l :
  Forall P l -> Forall (fun g => Forall P g.1) (group_messages l).
Proof.
  intros Hl. rewrite <- (group_messages_concat l) in Hl.
  apply List.Forall_forall. intros g Hg. apply List.Forall_forall. intros x Hx.
  rewrite List.Forall_forall in Hl. apply Hl. apply in_concat.
  exists g.1. split; [|done]. apply in_map. done.
Qed.

Lemma selected_Forall (P : message -> Prop) msgs sysopt N T :
  Forall P (List.filter (fun m => negb (is_system m)) msgs) ->
  Forall P (selected msgs sysopt N T).
Proof.
  intros Hf. unfold selected. apply Forall_rev.
  apply select_loop_Forall; [constructor|].
  apply Forall_rev. by apply groups_Forall.
Qed.

Lemma filter_no_system msgs :
  Forall (fun m => is_system m = false) (List.filter (fun m => negb (is_system m)) msgs).
Proof.
  apply List.Forall_forall. intros x Hx. apply filter_In in Hx as [_ Hx].
  by destruct (is_system x).
Qed.

(** The output is the system turn followed by a subsequence of what the
    selection stage handed on. *)
Lemma truncate_decomp msgs sysopt N T :
  ∃ tail, truncate_messages msgs sysopt N T = system_prefix sysopt ++ tail ∧
          tail `sublist_of` selected msgs sysopt N T.
Proof.
  pose proof (selected_Forall _ msgs sysopt N T (filter_no_system msgs)) as Hns.
  unfold truncate_messages. fold (system_tokens sysopt).
  destruct (List.filter _ msgs) as [|m0 fl] eqn:Ef.
  { exists []. split; [by destruct sysopt|]. apply sublist_nil_l. }
  unfold validate. rewrite <- Ef.
  fold (selected msgs sysopt N T).
  pose proof (validate_loop_sublist (dom (tool_messages_by_id (selected msgs sysopt N T)))
                (selected msgs sysopt N T) VNormal) as Hsub.
  generalize dependent (validate_loop (dom (tool_messages_by_id (selected msgs sysopt N T)))
                VNormal (selected msgs sysopt N T)).
  intros V HV. destruct sysopt as [s|]; simpl.
  - exists (final_clean V). split; [done|]. etrans; [apply final_loop_sublist|done].
  - destruct V as [|m V'].
    + exists []. split; [done|]. apply sublist_nil_l.
    + destruct m as [c|c|c tcs|c id];
        try (eexists; split; [reflexivity|];
             etrans; [apply final_loop_sublist|done]).
      exfalso. pose proof (Forall_sublist_of _ _ _ HV Hns) as Hx.
      inversion Hx; subst. done.
Qed.

Lemma select_step_inv N T s0 st g :
  sel_inv N T s0 st -> sel_inv N T s0 (ctl_state (select_step N T st g)).
Proof.
  intros (Hc & Ht & Hn & Hb). destruct g as [seq c]. unfold select_step.
  destruct (negb c && _); [done|]. destruct (_ && _); [done|].
  destruct ((message_count st + length seq <=? N) && _) eqn:E; [|done].
  apply andb_prop in E as [E1 E2]. apply Nat.leb_le in E1, E2. unfold sel_inv. simpl.
  rewrite length_app, seq_tokens_app. split_and!; [lia|lia|lia|right; lia].
Qed.

Lemma select_loop_inv N T s0 st gs :
  sel_inv N T s0 st -> sel_inv N T s0 (ctl_state (select_loop N T st gs)).
Proof.
  revert st. induction gs as [|g gs IH]; intros st Hst; cbn [select_loop]; [done|].
  pose proof (select_step_inv N T s0 st g Hst) as Hs.
  destruct (select_step N T st g); cbn [ctl_state] in *; [by apply IH|done].
Qed.

Lemma selected_inv msgs sysopt N T :
  ∃ st, selected msgs sysopt N T = rev (messages_to_add st) ∧
        sel_inv N T (system_tokens sysopt) st.
Proof.
  eexists. split; [reflexivity|]. apply select_loop_inv.
  unfold sel_inv. simpl. split_and!; [done|unfold seq_tokens; simpl; lia|lia|by left].
Qed.

End Generic.

Module Window.
Import Shape.

Lemma tool_run_no_ai req inc ts c tcs : tool_run req inc ts -> ¬ In (AIMessage c tcs) ts.
Proof. induction 1 as [|inc c0 id ts Hne Hin Hinc Hrun IH]; simpl; [tauto|]. intros [Heq|Hin2]; [done|auto]. Qed.

Lemma tool_run_ids req inc ts id :
  tool_run req inc ts -> id ∈ tool_ids ts -> ∃ c, In (ToolMessage c id) ts.
Proof.
  induction 1 as [inc|inc c id' ts Hne Hin Hinc Hrun IH]; unfold tool_ids; simpl.
  - set_solver.
  - rewrite elem_of_union, elem_of_singleton. intros [->|H].
    + exists c. by left.
    + destruct (IH H) as [c' Hc']. exists c'. by right.
Qed.

Lemma tool_run_member req inc ts c id :
  tool_run req inc ts -> In (ToolMessage c id) ts -> id ∈ req.
Proof.
  induction 1 as [inc|inc c' id' ts Hne Hin Hinc Hrun IH]; simpl; [done|].
  intros [H|H]; [by injection H as -> ->|auto].
Qed.

(** Every id declared by an assistant turn of a valid window is answered
    by a tool message of the window. *)
Lemma window_answered l :
  window_ok l -> ∀ c tcs id, In (AIMessage c tcs) l -> id ∈ required_ids tcs ->
  ∃ c', In (ToolMessage c' id) l.
Proof.
  induction 1 as [|m l Hp Hl IH|c tcs ts l Hne Hemp Hrun Hids Hl IH];
    intros c0 tcs0 id Hin Hid; [done| |].
  - destruct Hin as [->|Hin].
    + simpl in Hp. destruct tcs0; [|done]. set_solver.
    + destruct (IH c0 tcs0 id Hin Hid) as [c' Hc']. exists c'. by right.
  - destruct Hin as [Heq|Hin].
    + injection Heq as -> ->. rewrite <- Hids in Hid.
      destruct (tool_run_ids _ _ _ _ Hrun Hid) as [c' Hc'].
      exists c'. right. apply in_or_app. by left.
    + apply in_app_or in Hin as [Hin|Hin].
      * by apply (tool_run_no_ai _ _ _ c0 tcs0 Hrun) in Hin.
      * destruct (IH c0 tcs0 id Hin Hid) as [c' Hc']. exists c'.
        right. apply in_or_app. by right.
Qed.

(** Every tool message of a valid window is preceded by an assistant
    turn declaring its id. *)
Lemma window_backed l :
  window_ok l -> ∀ pre c id post, l = pre ++ ToolMessage c id :: post ->
  ∃ c' tcs, In (AIMessage c' tcs) pre ∧ id ∈ required_ids tcs.
Proof.
  induction 1 as [|m l Hp Hl IH|c tcs ts l Hne Hemp Hrun Hids Hl IH];
    intros pre c0 id post Heq.
  - by destruct pre.
  - destruct pre as [|x pre]; simpl in Heq; injection Heq as -> Heq.
    + done.
    + destruct (IH pre c0 id post Heq) as (c' & tcs' & Hin & Hid).
      exists c', tcs'. split; [by right|done].
  - destruct pre as [|x pre]; simpl in Heq; [discriminate|injection Heq as Hx Heq; subst x].
    apply app_eq_app in Heq as (k & [[-> Hk]|[-> Hk]]).
    + destruct k as [|y k]; simpl in Hk.
      * subst l. apply Shape.window_ok_head in Hl. done.
      * injection Hk as Hy Hpost. subst y post.
        exists c, tcs. split; [by left|].
        apply (tool_run_member _ _ _ c0 _ Hrun). apply in_or_app. right. by left.
    + destruct (IH k c0 id post Hk) as (c' & tcs' & Hin & Hid).
      exists c', tcs'. split; [|done]. right. apply in_or_app. by right.
Qed.

End Window.

Module Extra.
Import Shape Generic Window.

Lemma rep_length n : String.length (rep n) = n.
Proof. induction n; simpl; auto. Qed.

Lemma rep_tokens k : get_message_tokens (HumanMessage (rep (4 * k))) = k.
Proof.
  unfold get_message_tokens, chars_per_token. cbn [message_content].
  rewrite rep_length, Nat.mul_comm. by apply Nat.div_mul.
Qed.

Lemma truncate_single_human c s N T :
  truncate_messages [HumanMessage c] (Some s) N T =
  if (1 <=? N) && (get_message_tokens (SystemMessage s) + get_message_tokens (HumanMessage c) <=? T)
  then [SystemMessage s; HumanMessage c] else [SystemMessage s].
Proof.
  unfold truncate_messages. cbn -[get_message_tokens per_message_ceiling].
  rewrite andb_false_r, Nat.add_0_r.
  destruct (_ && _); reflexivity.
Qed.

Lemma select_step_empty N T tot cnt seq :
  select_step N T (SelState [] tot cnt) (seq, true) =
  if (cnt + length seq <=? N) && (tot + seq_tokens seq <=? T)
  then Continue (SelState seq (tot + seq_tokens seq) (cnt + length seq))
  else Break (SelState [] tot cnt).
Proof. unfold select_step. simpl. by rewrite andb_false_r. Qed.

Lemma window_ok_ai l c tcs :
  window_ok l -> In (AIMessage c tcs) l -> tcs ≠ [] -> required_ids tcs ≠ ∅.
Proof.
  induction 1 as [|m l Hp Hl IH|c' tcs' ts l Hne Hemp Hrun Hids Hl IH]; [done| |].
  - intros [->|Hin]; [|auto]. simpl in Hp. by destruct tcs.
  - intros [Heq|Hin]; [by injection Heq as -> ->|].
    apply in_app_or in Hin as [Hin|Hin]; [|auto].
    by apply (tool_run_no_ai _ _ _ c tcs Hrun) in Hin.
Qed.

Lemma validate_normal_noids keys c tcs :
  tcs ≠ [] -> required_ids tcs = ∅ ->
  validate_normal keys (AIMessage c tcs) = ([AIMessage c tcs], VNormal).
Proof.
  intros Hne Hemp. destruct tcs as [|tc tcs]; [done|]. simpl.
  rewrite Hemp. by rewrite bool_decide_eq_true_2.
Qed.

Lemma tool_run_nodup req inc ts :
  tool_run req inc ts ->
  NoDup (map msg_tool_id ts) ∧ ∀ x, x ∈ map msg_tool_id ts -> x ∉ inc.
Proof.
  induction 1 as [inc|inc c id ts Hne Hin Hinc Hrun [IH1 IH2]]; simpl.
  - split; [constructor|]. intros x Hx. inversion Hx.
  - split.
    + constructor; [|done]. intros Hid. specialize (IH2 id Hid). set_solver.
    + intros x Hx. inversion Hx; subst; [done|]. specialize (IH2 x). set_solver.
Qed.

Lemma tool_run_prefix req inc ts l :
  tool_run req inc ts -> tool_prefix (ts ++ l) = ts ++ tool_prefix l.
Proof. induction 1; simpl; congruence. Qed.

Lemma tool_prefix_nontool l : starts_with_tool l = false -> tool_prefix l = [].
Proof. destruct l as [|[] l]; done. Qed.

Lemma window_ok_tool_prefix l :
  window_ok l -> ∀ pre c tcs post, l = pre ++ AIMessage c tcs :: post ->
  NoDup (map msg_tool_id (tool_prefix post)).
Proof.
  induction 1 as [|m l Hp Hl IH|c tcs ts l Hne Hemp Hrun Hids Hl IH];
    intros pre c0 tcs0 post Heq.
  - by destruct pre.
  - destruct pre as [|x pre]; simpl in Heq; injection Heq as Hx Heq; subst.
    + rewrite tool_prefix_nontool; [constructor|]. by apply window_ok_head.
    + by apply (IH pre c0 tcs0 post).
  - destruct pre as [|x pre]; simpl in Heq.
    + injection Heq as -> -> <-.
      rewrite (tool_run_prefix _ _ _ _ Hrun).
      rewrite (tool_prefix_nontool l (window_ok_head l Hl)), app_nil_r.
      by apply (tool_run_nodup _ _ _ Hrun).
    + injection Heq as Hx Hy. subst x.
      apply app_eq_app in Hy as (k & [[-> Hk]|[-> Hk]]).
      * destruct k as [|y k]; simpl in Hk.
        -- subst l. by apply (IH [] c0 tcs0 post).
        -- injection Hk as Hy Hk. subst y.
           exfalso. apply (tool_run_no_ai _ _ _ c0 tcs0 Hrun).
           apply in_or_app. right. by left.
      * by apply (IH k c0 tcs0 post).
Qed.

Lemma group_duplicate st c1 c2 id :
  id ≠ ""%string -> id ∈ pending_tool_call_ids st ->
  group_step (group_step st (ToolMessage c1 id)) (ToolMessage c2 id) =
  GroupState (sequences st ++
                [(current_sequence st ++ [ToolMessage c1 id],
                  bool_decide (pending_tool_call_ids st ∖ {[id]} = ∅));
                 ([ToolMessage c2 id], true)]) [] ∅.
Proof.
  intros Hne Hin. unfold group_step.
  assert (Ht : truthy id = true) by (by apply bool_decide_eq_true_2).
  rewrite Ht, (bool_decide_eq_true_2 (id ∈ pending_tool_call_ids st) Hin). simpl.
  rewrite bool_decide_eq_false_2 by set_solver. simpl.
  unfold flush. simpl. destruct (current_sequence st ++ _) eqn:E.
  - by destruct (current_sequence st).
  - simpl. rewrite <- E, <- app_assoc. done.
Qed.

Lemma sublist_subseqb l1 l2 : l1 `sublist_of` l2 -> subseqb l1 l2 = true.
Proof.
  induction 1 as [|x l1 l2 Hs IH|x l1 l2 Hs IH]; simpl; [done| |].
  - by rewrite bool_decide_eq_true_2, IH.
  - destruct l1; [done|]. by rewrite IH, orb_true_r.
Qed.

End Extra.

Module Simple.
Import Generic Final.

Lemma simple_plain m : simple_turn m = true -> plain m.
Proof. by destruct m as [|c|c [|]|]. Qed.

Lemma simple_not_system m : simple_turn m = true -> is_system m = false.
Proof. by destruct m. Qed.

Lemma filter_simple l :
  forallb simple_turn l = true -> List.filter (fun m => negb (is_system m)) l = l.
Proof.
  induction l as [|m l IH]; simpl; [done|]. intros [Hm Hl]%andb_prop.
  rewrite (simple_not_system m Hm). simpl. by rewrite IH.
Qed.

Lemma group_fold_simple l seqs :
  forallb simple_turn l = true ->
  foldl group_step (GroupState seqs [] ∅) l = GroupState (seqs ++ map (fun m => ([m], true)) l) [] ∅.
Proof.
  revert seqs. induction l as [|m l IH]; intros seqs Hl; simpl; [by rewrite app_nil_r|].
  apply andb_prop in Hl as [Hm Hl].
  assert (Hs : group_step (GroupState seqs [] ∅) m = GroupState (seqs ++ [([m], true)]) [] ∅).
  { by destruct m as [|c|c [|]|]. }
  rewrite Hs, IH by done. by rewrite <- app_assoc.
Qed.

Lemma group_messages_simple l :
  forallb simple_turn l = true -> group_messages l = map (fun m => ([m], true)) l.
Proof. intros Hl. unfold group_messages, group_init. by rewrite (group_fold_simple l []). Qed.

Lemma select_loop_simple N T s0 l : ∀ acc tot cnt,
  forallb simple_turn l = true -> forallb within_ceiling l = true ->
  cnt = length acc -> tot = s0 + seq_tokens acc ->
  length acc ≤ N < length acc + length l -> s0 + seq_tokens acc + seq_tokens l ≤ T ->
  messages_to_add (ctl_state (select_loop N T (SelState acc tot cnt) (map (fun m => ([m], true)) l)))
  = acc ++ take (N - length acc) l.
Proof.
  induction l as [|m l IH]; intros acc tot cnt Hs Hc -> -> Hn Ht; simpl in *; [lia|].
  apply andb_prop in Hs as [Hsm Hs]. apply andb_prop in Hc as [Hcm Hc].
  unfold within_ceiling in Hcm. apply Nat.leb_le in Hcm.
  unfold select_step. simpl.
  assert (Hx : (per_message_ceiling <? get_message_tokens m) = false) by (apply Nat.ltb_ge; lia).
  rewrite Hx. simpl.
  unfold seq_tokens in Ht |- *. simpl in Ht |- *.
  destruct (decide (length acc + 1 ≤ N)) as [Hle|Hgt].
  - rewrite (proj2 (Nat.leb_le _ _) Hle).
    rewrite (proj2 (Nat.leb_le (s0 + sum_list (map get_message_tokens acc) + (get_message_tokens m + 0)) T))
      by lia. simpl.
    rewrite (IH (acc ++ [m])); [| done | done | by rewrite length_app | | rewrite length_app; simpl; lia | ].
    + rewrite <- app_assoc. simpl. rewrite length_app. simpl.
      replace (N - length acc) with (S (N - (length acc + 1))) by lia. done.
    + fold (seq_tokens (acc ++ [m])). rewrite seq_tokens_app. unfold seq_tokens. simpl. lia.
    + fold (seq_tokens (acc ++ [m])). rewrite seq_tokens_app. unfold seq_tokens in *. simpl. lia.
  - rewrite (proj2 (Nat.leb_gt _ _)) by lia. simpl.
    replace (N - length acc) with 0 by lia. by rewrite app_nil_r.
Qed.

Lemma validate_loop_plain keys l :
  Forall plain l -> validate_loop keys VNormal l = l.
Proof.
  induction 1 as [|m l Hm Hl IH]; [done|]. cbn [validate_loop].
  assert (Hv : validate_step keys VNormal m = ([m], VNormal)) by (destruct m as [|c|c [|]|]; done).
  rewrite Hv. simpl. by rewrite IH.
Qed.

Lemma final_loop_plain keys l :
  Forall plain l -> final_loop keys FNormal l = l.
Proof.
  induction 1 as [|m l Hm Hl IH]; [done|]. cbn [final_loop].
  assert (Hv : final_step keys FNormal m l = ([m], FNormal)) by (by apply final_normal_plain).
  rewrite Hv. simpl. by rewrite IH.
Qed.

Lemma forallb_plain l : forallb simple_turn l = true -> Forall plain l.
Proof.
  intros H. apply List.Forall_forall. intros x Hx.
  apply simple_plain. rewrite forallb_forall in H. auto.
Qed.

Lemma select_loop_app N T st l1 l2 :
  select_loop N T st (l1 ++ l2) =
  match select_loop N T st l1 with
  | Continue st' => select_loop N T st' l2
  | Break st' => Break st'
  end.
Proof.
  revert st. induction l1 as [|g l1 IH]; intros st; [done|]. cbn [select_loop app].
  destruct (select_step N T st g); [apply IH|done].
Qed.

Lemma select_step_break N T st g st' : select_step N T st g = Break st' -> st' = st.
Proof. destruct g as [seq c]. unfold select_step. repeat case_match; congruence. Qed.

Lemma forallb_rev (f : message -> bool) l : forallb f (rev l) = forallb f l.
Proof.
  apply eq_true_iff_eq. rewrite !forallb_forall. setoid_rewrite <- in_rev. done.
Qed.

Lemma truncate_recent sysopt hist N T :
  forallb simple_turn hist = true -> forallb within_ceiling hist = true ->
  system_tokens sysopt + seq_tokens hist ≤ T -> N < length hist ->
  truncate_messages hist sysopt N T = system_prefix sysopt ++ drop (length hist - N) hist.
Proof.
  intros Hs Hc Ht Hn.
  assert (Hsel : selected hist sysopt N T = drop (length hist - N) hist).
  { unfold selected. rewrite filter_simple, group_messages_simple by done.
    rewrite <- map_rev.
    rewrite (select_loop_simple N T (system_tokens sysopt) (rev hist) [] (system_tokens sysopt) 0).
    - simpl. rewrite Nat.sub_0_r, firstn_rev. by rewrite rev_involutive.
    - by rewrite forallb_rev.
    - by rewrite forallb_rev.
    - done.
    - unfold seq_tokens; simpl; lia.
    - rewrite length_rev; simpl; lia.
    - rewrite seq_tokens_rev. unfold seq_tokens at 1. simpl. lia. }
  assert (HD : Forall plain (drop (length hist - N) hist)).
  { apply Forall_drop. by apply forallb_plain. }
  unfold truncate_messages. fold (system_tokens sysopt).
  rewrite filter_simple by done.
  destruct hist as [|m0 h'] eqn:Eh; [simpl in Hn; lia|]. rewrite <- Eh in *.
  pose proof Hsel as Hsel'. unfold selected in Hsel'. rewrite filter_simple in Hsel' by done.
  rewrite Hsel'. unfold validate. rewrite validate_loop_plain by done.
  destruct sysopt as [s|]; simpl.
  - unfold final_clean. by rewrite final_loop_plain.
  - destruct (drop (length hist - N) hist) as [|d D] eqn:ED; [done|].
    inversion HD as [|? ? Hd HD']; subst.
    destruct d as [c|c|c tcs|c id]; simpl in Hd; try done;
      unfold final_clean; rewrite final_loop_plain; by try constructor.
Qed.

Lemma no_gap N T st0 gs1 g gs2 st st' :
  select_loop N T st0 gs1 = Continue st -> select_step N T st g = Break st' ->
  select_loop N T st0 (gs1 ++ g :: gs2) = Break st.
Proof.
  intros H1 H2. rewrite select_loop_app, H1. cbn [select_loop]. rewrite H2.
  by rewrite (select_step_break _ _ _ _ _ H2).
Qed.
End Simple.

Module Heap.

Lemma keeps_refl h : keeps h h.
Proof. done. Qed.

Lemma keeps_store h0 h l v : keeps h0 h -> l ∉ dom h0 -> keeps h0 (<[l := v]> h).
Proof. intros Hk Hl l' Hl'. rewrite lookup_insert_ne by set_solver. auto. Qed.

Lemma keeps_dom h0 h : keeps h0 h -> dom h0 ⊆ dom h.
Proof.
  intros Hk l Hl. specialize (Hk l Hl). apply elem_of_dom in Hl as [v Hv].
  apply elem_of_dom. exists v. congruence.
Qed.

Lemma keeps_fresh h0 h : keeps h0 h -> fresh (dom h) ∉ dom h0.
Proof. intros Hk Hin. apply (is_fresh (dom h)). by apply (keeps_dom h0 h Hk). Qed.

Lemma bind_load l {B} (k : list message -> ST B) h : (x ← load l; k x) h = k (default [] (h !! l)) h.
Proof. done. Qed.
Lemma bind_alloc v {B} (k : positive -> ST B) h :
  (x ← alloc v; k x) h = k (fresh (dom h)) (<[fresh (dom h) := v]> h).
Proof. done. Qed.
Lemma bind_store l v {B} (k : unit -> ST B) h : (x ← store l v; k x) h = k tt (<[l := v]> h).
Proof. done. Qed.
Lemma bind_ret {A B} (a : A) (k : A -> ST B) h : (x ← mret a; k x) h = k a h.
Proof. done. Qed.
Lemma ret_run {A} (a : A) h : (mret a : ST A) h = (a, h).
Proof. done. Qed.
Lemma alloc_run v h : alloc v h = (fresh (dom h), <[fresh (dom h) := v]> h).
Proof. done. Qed.

Lemma fresh_ne (H : gmap positive (list message)) l : l ∈ dom H -> fresh (dom H) ≠ l.
Proof. intros Hl E. apply (is_fresh (dom H)). by rewrite E. Qed.

Ltac keeps_tac :=
  repeat match goal with
  | |- keeps ?h0 ?h0 => apply keeps_refl
  | |- keeps _ (<[_ := _]> _) => apply keeps_store
  | |- fresh (dom _) ∉ dom _ => apply keeps_fresh
  | |- _ ∉ dom _ => assumption
  end.

Ltac step H :=
  first [ rewrite bind_load in H | rewrite bind_alloc in H | rewrite bind_store in H
        | rewrite bind_ret in H | rewrite ret_run in H | rewrite alloc_run in H ]; cbv beta in H.

Ltac fresh_tac :=
  repeat match goal with
  | |- fresh (dom _) ∉ dom _ => apply keeps_fresh
  | |- keeps ?h0 ?h0 => apply keeps_refl
  | |- keeps _ (<[_ := _]> _) => apply keeps_store
  end.

Ltac lookup_tac :=
  repeat first
    [ rewrite lookup_insert_eq
    | rewrite lookup_insert_ne by (apply fresh_ne; rewrite ?dom_insert_L; set_solver)
    | rewrite lookup_insert_ne by (apply not_eq_sym, fresh_ne; rewrite ?dom_insert_L; set_solver) ].

Lemma truncate_heap h messages msgs sysopt N T r h' :
  h !! messages = Some msgs ->
  truncate_messages_heap messages sysopt N T h = (r, h') ->
  h' !! messages = Some msgs ∧ keeps h h' ∧ (r ∉ dom h) ∧ r ≠ messages ∧
  h' !! r = Some (truncate_messages msgs sysopt N T).
Proof.
  intros Hm Hrun.
  assert (Hg : keeps h h' ∧ (r ∉ dom h) ∧ h' !! r = Some (truncate_messages msgs sysopt N T)).
  { unfold truncate_messages_heap in Hrun. step Hrun. rewrite Hm in Hrun.
    change (default [] (Some msgs)) with msgs in Hrun.
    unfold truncate_messages. fold (system_tokens sysopt).
    destruct sysopt as [s|]; repeat step Hrun;
      destruct (List.filter _ msgs) as [|m0 fl] eqn:Ef; repeat step Hrun.
    - injection Hrun as <- <-. split_and!; [fresh_tac..|]. lookup_tac. done.
    - cbn [app] in Hrun |- *. repeat step Hrun.
      injection Hrun as <- <-. split_and!; [fresh_tac..|]. lookup_tac. done.
    - injection Hrun as <- <-. split_and!; [fresh_tac..|]. lookup_tac. done.
    - cbn [app] in Hrun |- *.
      destruct (validate _) as [|v V] eqn:EV; [|destruct v];
        cbv beta iota in Hrun |- *; repeat step Hrun;
        injection Hrun as <- <-; (split_and!; [fresh_tac..|]); lookup_tac; done. }
  destruct Hg as (Hk & Hr & Hv). split_and!; [|done|done| |done].
  - rewrite Hk; [done|]. by apply elem_of_dom_2 in Hm.
  - intros ->. apply Hr. by apply elem_of_dom_2 in Hm.
Qed.

End Heap.

Module Scenarios.

(** Small runs of the embedding: a plain exchange, a tool call answered
    and a tool call left unanswered (tool calls in the mapping shape
    langchain produces). *)

Example scenario_plain :
  truncate_messages [HumanMessage "hi"] (Some "You are a researcher.") 10 100000
  = [SystemMessage "You are a researcher."; HumanMessage "hi"].
Proof. vm_compute. reflexivity. Qed.

Example scenario_answered :
  truncate_messages [AIMessage "" [ToolCallDict "t1"]; ToolMessage "r" "t1"]
    (Some "You are a researcher.") 10 100000
  = [SystemMessage "You are a researcher."; AIMessage "" [ToolCallDict "t1"]; ToolMessage "r" "t1"].
Proof. vm_compute. reflexivity. Qed.

Example scenario_unanswered :
  truncate_messages [AIMessage "" [ToolCallDict "t1"]] (Some "You are a researcher.") 10 100000
  = [SystemMessage "You are a researcher."].
Proof. vm_compute. reflexivity. Qed.

End Scenarios.

Module Claims.
Import Pipeline Generic Window Extra Simple Heap.

(** C1: atomicity.  In every output, each id declared by an assistant
    turn is answered by a tool message of the output, and each tool
    message is preceded, earlier in the output, by an assistant turn
    declaring its id. *)
Theorem C1_atomicity msgs sysopt N T :
  (∀ c tcs id, In (AIMessage c tcs) (truncate_messages msgs sysopt N T) ->
     id ∈ required_ids tcs -> ∃ c', In (ToolMessage c' id) (truncate_messages msgs sysopt N T)) ∧
  (∀ pre c id post, truncate_messages msgs sysopt N T = pre ++ ToolMessage c id :: post ->
     ∃ c' tcs, In (AIMessage c' tcs) pre ∧ id ∈ required_ids tcs).
Proof.
  pose proof (truncate_window_ok msgs sysopt N T) as Hw. split.
  - by apply window_answered.
  - by apply window_backed.
Qed.

Lemma C1_witness :
  ∃ c', In (ToolMessage c' "t1")
          (truncate_messages [AIMessage "" [ToolCallDict "t1"]; ToolMessage "r" "t1"] (Some "S") 10 100000).
Proof.
  apply (proj1 (C1_atomicity [AIMessage "" [ToolCallDict "t1"]; ToolMessage "r" "t1"] (Some "S") 10 100000)
           "" [ToolCallDict "t1"] "t1").
  - vm_compute. right. left. reflexivity.
  - vm_compute. reflexivity.
Defined.

(** C2 (corrected): while nothing has been accepted, the per-turn ceiling
    is not applied, but a complete group still has to pass the count and
    size budgets, the system turn's size included; so a lone turn is kept
    exactly when it fits, whatever its size. *)
Theorem C2_first_group N T tot cnt seq c s :
  select_step N T (SelState [] tot cnt) (seq, true) =
    (if (cnt + length seq <=? N) && (tot + seq_tokens seq <=? T)
     then Continue (SelState seq (tot + seq_tokens seq) (cnt + length seq))
     else Break (SelState [] tot cnt)) ∧
  truncate_messages [HumanMessage c] (Some s) N T =
    (if (1 <=? N) && (get_message_tokens (SystemMessage s) + get_message_tokens (HumanMessage c) <=? T)
     then [SystemMessage s; HumanMessage c] else [SystemMessage s]).
Proof. split; [apply select_step_empty|apply truncate_single_human]. Qed.

Lemma C2_witness :
  truncate_messages [HumanMessage (rep (4 * 30001))] (Some "S") 10 100000
  = [SystemMessage "S"; HumanMessage (rep (4 * 30001))].
Proof.
  rewrite (proj2 (C2_first_group 10 100000 0 0 [] (rep (4 * 30001)) "S")).
  rewrite rep_tokens.
  assert (E : (1 <=? 10) && (get_message_tokens (SystemMessage "S") + 30001 <=? 100000) = true)
    by (vm_compute; reflexivity).
  rewrite E. reflexivity.
Defined.

(** C2: a single turn of 100001 estimated units, over the per-turn ceiling,
    is the only group; with the budgets of the researcher (10 turns,
    100000 units) the output is the system turn alone. *)
Lemma C2_counterexample :
  per_message_ceiling < get_message_tokens (HumanMessage (rep (4 * 100001))) ∧
  truncate_messages [HumanMessage (rep (4 * 100001))] (Some "S") 10 100000 = [SystemMessage "S"].
Proof.
  rewrite truncate_single_human, rep_tokens. split.
  - apply Nat.ltb_lt. vm_compute. reflexivity.
  - assert (E : (get_message_tokens (SystemMessage "S") + 100001 <=? 100000) = false)
      by (vm_compute; reflexivity).
    rewrite E, andb_false_r. reflexivity.
Qed.

(** C3 (corrected): an assistant turn with tool calls none of which has an
    id is kept by the validation stage, but never appears in the output:
    the final safety pass requires a non-empty set of ids. *)
Theorem C3_no_id_calls msgs sysopt N T keys c tcs :
  tcs ≠ [] -> required_ids tcs = ∅ ->
  validate_normal keys (AIMessage c tcs) = ([AIMessage c tcs], VNormal) ∧
  ¬ In (AIMessage c tcs) (truncate_messages msgs sysopt N T).
Proof.
  intros Hne Hemp. split; [by apply validate_normal_noids|].
  intros Hin. by apply (window_ok_ai _ c tcs (truncate_window_ok msgs sysopt N T) Hin Hne).
Qed.

Lemma C3_witness :
  validate_normal ∅ (AIMessage "x" [ToolCallDict ""]) = ([AIMessage "x" [ToolCallDict ""]], VNormal) ∧
  ¬ In (AIMessage "x" [ToolCallDict ""])
      (truncate_messages [HumanMessage "q"; AIMessage "x" [ToolCallDict ""]] (Some "S") 10 100000).
Proof.
  apply (C3_no_id_calls [HumanMessage "q"; AIMessage "x" [ToolCallDict ""]] (Some "S") 10 100000 ∅
           "x" [ToolCallDict ""]).
  - discriminate.
  - vm_compute. reflexivity.
Defined.

(** C3: within every budget, the malformed turn is dropped. *)
Lemma C3_counterexample :
  truncate_messages [AIMessage "x" [ToolCallDict ""]] (Some "S") 10 100000 = [SystemMessage "S"].
Proof. vm_compute. reflexivity. Qed.

(** C4 (corrected): a second tool result for an id already answered is not
    kept in the group: it closes the group and forms a group of its own;
    and in every output the tool messages that follow an assistant turn
    carry pairwise distinct ids, so a duplicate is never copied after the
    first. *)
Theorem C4_duplicate_results st c1 c2 id msgs sysopt N T :
  id ≠ ""%string -> id ∈ pending_tool_call_ids st ->
  group_step (group_step st (ToolMessage c1 id)) (ToolMessage c2 id) =
    GroupState (sequences st ++
                  [(current_sequence st ++ [ToolMessage c1 id],
                    bool_decide (pending_tool_call_ids st ∖ {[id]} = ∅));
                   ([ToolMessage c2 id], true)]) [] ∅ ∧
  (∀ pre c tcs post, truncate_messages msgs sysopt N T = pre ++ AIMessage c tcs :: post ->
     NoDup (map msg_tool_id (tool_prefix post))).
Proof.
  intros Hne Hin. split; [by apply group_duplicate|].
  apply window_ok_tool_prefix, truncate_window_ok.
Qed.

Lemma C4_witness :
  group_step (group_step (GroupState [] [AIMessage "x" [ToolCallObj "a"]] {["a"]}) (ToolMessage "r1" "a"))
    (ToolMessage "r2" "a") =
    GroupState ([] ++ [([AIMessage "x" [ToolCallObj "a"]] ++ [ToolMessage "r1" "a"],
                       bool_decide ({["a"]} ∖ {["a"]} = (∅ : gset string)));
                      ([ToolMessage "r2" "a"], true)]) [] ∅ ∧
  (∀ pre c tcs post,
     truncate_messages [AIMessage "x" [ToolCallDict "a"]; ToolMessage "r1" "a"; ToolMessage "r2" "a"]
       (Some "S") 10 100000 = pre ++ AIMessage c tcs :: post ->
     NoDup (map msg_tool_id (tool_prefix post))).
Proof.
  assert (Hne : "a" ≠ ""%string) by discriminate.
  assert (Hin : "a" ∈ pending_tool_call_ids (GroupState [] [AIMessage "x" [ToolCallObj "a"]] {["a"]}))
    by (cbn [pending_tool_call_ids]; set_solver).
  exact (C4_duplicate_results (GroupState [] [AIMessage "x" [ToolCallObj "a"]] {["a"]}) "r1" "r2" "a"
           [AIMessage "x" [ToolCallDict "a"]; ToolMessage "r1" "a"; ToolMessage "r2" "a"]
           (Some "S") 10 100000 Hne Hin).
Defined.

(** C4: with tool calls read by grouping, the duplicate becomes a group of
    its own; with tool calls in the mapping shape, the duplicate is
    dropped from the output. *)
Lemma C4_counterexample :
  group_messages [AIMessage "x" [ToolCallObj "a"]; ToolMessage "r1" "a"; ToolMessage "r2" "a"]
  = [([AIMessage "x" [ToolCallObj "a"]; ToolMessage "r1" "a"], true); ([ToolMessage "r2" "a"], true)] ∧
  truncate_messages [AIMessage "x" [ToolCallDict "a"]; ToolMessage "r1" "a"; ToolMessage "r2" "a"]
    (Some "S") 10 100000
  = [SystemMessage "S"; AIMessage "x" [ToolCallDict "a"]; ToolMessage "r1" "a"].
Proof. split; vm_compute; reflexivity. Qed.

(** C5 (corrected): besides the system turn the output holds at most
    [max_messages] turns, and as soon as it holds any, its estimated size,
    the system turn's included, is at most [max_tokens_approx]; no group
    is exempt. *)
Theorem C5_budgets msgs sysopt N T :
  ∃ tail, truncate_messages msgs sysopt N T = system_prefix sysopt ++ tail ∧
          length tail ≤ N ∧
          (tail = [] ∨ seq_tokens (truncate_messages msgs sysopt N T) ≤ T).
Proof.
  destruct (truncate_decomp msgs sysopt N T) as (tail & Hout & Hsub).
  destruct (selected_inv msgs sysopt N T) as (st & Hsel & Hc & Ht & Hn & Hb).
  rewrite Hsel in Hsub. exists tail. split_and!; [done| |].
  - apply sublist_length in Hsub. rewrite length_rev in Hsub. lia.
  - destruct tail as [|m tail]; [by left|right].
    destruct Hb as [Hnil|Hb].
    + rewrite Hnil in Hsub. apply sublist_nil_r in Hsub. discriminate.
    + apply seq_tokens_sublist in Hsub. rewrite seq_tokens_rev in Hsub.
      rewrite Hout, seq_tokens_app.
      assert (Hs : seq_tokens (system_prefix sysopt) = system_tokens sysopt)
        by (destruct sysopt; unfold seq_tokens; simpl; lia).
      lia.
Qed.

Lemma C5_witness :
  ∃ tail, truncate_messages [HumanMessage "abcd"; HumanMessage "efgh"] (Some "S") 1 100000
            = system_prefix (Some "S") ++ tail ∧
          length tail ≤ 1 ∧
          (tail = [] ∨ seq_tokens (truncate_messages [HumanMessage "abcd"; HumanMessage "efgh"]
                                     (Some "S") 1 100000) ≤ 100000).
Proof. exact (C5_budgets [HumanMessage "abcd"; HumanMessage "efgh"] (Some "S") 1 100000). Defined.

(** C5: with an empty history and both budgets 0, the output is the system
    turn: one turn more than allowed and one unit over the size budget. *)
Lemma C5_counterexample :
  truncate_messages [] (Some "abcd") 0 0 = [SystemMessage "abcd"] ∧
  0 < length (truncate_messages [] (Some "abcd") 0 0) ∧
  0 < seq_tokens (truncate_messages [] (Some "abcd") 0 0).
Proof. vm_compute. split; [reflexivity|lia]. Qed.

(** C6: for a history of plain turns, none over the per-turn ceiling, whose
    size with the system turn's fits the size budget, and longer than
    [max_messages], the output is the system turn followed by the
    [max_messages] most recent turns in order; and once the backward scan
    refuses a group, nothing older is accumulated. *)
Theorem C6_recent_turns :
  (∀ sysopt hist N T,
     forallb simple_turn hist = true -> forallb within_ceiling hist = true ->
     system_tokens sysopt + seq_tokens hist ≤ T -> N < length hist ->
     truncate_messages hist sysopt N T = system_prefix sysopt ++ drop (length hist - N) hist) ∧
  (∀ N T st0 gs1 g gs2 st st',
     select_loop N T st0 gs1 = Continue st -> select_step N T st g = Break st' ->
     select_loop N T st0 (gs1 ++ g :: gs2) = Break st).
Proof. split; [apply truncate_recent|apply no_gap]. Qed.

Lemma C6_witness :
  truncate_messages [HumanMessage "q1"; AIMessage "a1" []; HumanMessage "q2"; AIMessage "a2" []]
    (Some "S") 2 100000
  = system_prefix (Some "S") ++
    drop (4 - 2) [HumanMessage "q1"; AIMessage "a1" []; HumanMessage "q2"; AIMessage "a2" []].
Proof.
  apply (proj1 C6_recent_turns (Some "S")
           [HumanMessage "q1"; AIMessage "a1" []; HumanMessage "q2"; AIMessage "a2" []] 2 100000).
  - reflexivity.
  - vm_compute. reflexivity.
  - apply Nat.leb_le. vm_compute. reflexivity.
  - simpl. lia.
Defined.

(** C7 (code_bug): re-applying the function to its own output can change
    it.  Selection extends [messages_to_add] with each group in order and
    then reverses the whole list (lines 153 and 161), which also reverses
    the order inside a group of several messages. *)
Theorem C7_reapplication_changes :
  truncate_messages [AIMessage "x" [ToolCallObj "a"]; ToolMessage "r1" "a";
                     AIMessage "y" [ToolCallObj "a"]; ToolMessage "r2" "a"] (Some "S") 10 100000
  = [SystemMessage "S"; AIMessage "x" [ToolCallObj "a"]; ToolMessage "r2" "a"] ∧
  truncate_messages [SystemMessage "S"; AIMessage "x" [ToolCallObj "a"]; ToolMessage "r2" "a"]
    (Some "S") 10 100000
  = [SystemMessage "S"].
Proof. split; vm_compute; reflexivity. Qed.

(** C8: with a system message, the output starts with it and holds no
    other system message, whatever else is removed. *)
Theorem C8_system_first msgs s N T :
  ∃ rest, truncate_messages msgs (Some s) N T = SystemMessage s :: rest ∧
          Forall (fun m => is_system m = false) rest.
Proof.
  destruct (truncate_decomp msgs (Some s) N T) as (tail & Hout & Hsub).
  exists tail. split; [done|].
  eapply Forall_sublist_of; [exact Hsub|].
  apply selected_Forall, filter_no_system.
Qed.

Lemma C8_witness :
  ∃ rest, truncate_messages [SystemMessage "old"; AIMessage "" [ToolCallDict "t1"]] (Some "S") 10 100000
            = SystemMessage "S" :: rest ∧
          Forall (fun m => is_system m = false) rest.
Proof. exact (C8_system_first [SystemMessage "old"; AIMessage "" [ToolCallDict "t1"]] "S" 10 100000). Defined.

(** C9: on the heap of list objects, the call leaves every existing list,
    the input among them, as it was, and returns a newly allocated list
    holding the result. *)
Theorem C9_no_mutation h messages msgs sysopt N T r h' :
  h !! messages = Some msgs ->
  truncate_messages_heap messages sysopt N T h = (r, h') ->
  h' !! messages = Some msgs ∧ keeps h h' ∧ (r ∉ dom h) ∧ r ≠ messages ∧
  h' !! r = Some (truncate_messages msgs sysopt N T).
Proof. apply truncate_heap. Qed.

Lemma C9_witness :
  ({[1%positive := [HumanMessage "hi"]]} : gmap positive (list message)) !! 1%positive
    = Some [HumanMessage "hi"] ∧
  (truncate_messages_heap 1 (Some "S") 10 100000 {[1%positive := [HumanMessage "hi"]]}).2 !! 1%positive
    = Some [HumanMessage "hi"] ∧
  (truncate_messages_heap 1 (Some "S") 10 100000 {[1%positive := [HumanMessage "hi"]]}).1 ≠ 1%positive.
Proof.
  assert (H1 : ({[1%positive := [HumanMessage "hi"]]} : gmap positive (list message)) !! 1%positive
                 = Some [HumanMessage "hi"]) by reflexivity.
  assert (H2 : truncate_messages_heap 1 (Some "S") 10 100000 {[1%positive := [HumanMessage "hi"]]}
               = ((truncate_messages_heap 1 (Some "S") 10 100000 {[1%positive := [HumanMessage "hi"]]}).1,
                  (truncate_messages_heap 1 (Some "S") 10 100000 {[1%positive := [HumanMessage "hi"]]}).2))
    by (vm_compute; reflexivity).
  destruct (C9_no_mutation _ _ _ _ _ _ _ _ H1 H2) as (Hm & _ & _ & Hr & _).
  split; [exact H1|split; [exact Hm|exact Hr]].
Defined.

(** C10 (code_bug): the output is not always a subsequence of the input.
    The reversal of lines 153 and 161 puts the two tool results of the
    second exchange in the opposite order. *)
Theorem C10_order_not_preserved :
  truncate_messages [AIMessage "q1" [ToolCallObj "a"; ToolCallObj "b"];
                     ToolMessage "ra1" "a"; ToolMessage "rb1" "b";
                     AIMessage "q2" [ToolCallObj "a"; ToolCallObj "b"];
                     ToolMessage "ra2" "a"; ToolMessage "rb2" "b"] (Some "S") 10 100000
  = [SystemMessage "S"; AIMessage "q1" [ToolCallObj "a"; ToolCallObj "b"];
     ToolMessage "rb2" "b"; ToolMessage "ra2" "a"] ∧
  ¬ [AIMessage "q1" [ToolCallObj "a"; ToolCallObj "b"]; ToolMessage "rb2" "b"; ToolMessage "ra2" "a"]
    `sublist_of`
    [AIMessage "q1" [ToolCallObj "a"; ToolCallObj "b"];
     ToolMessage "ra1" "a"; ToolMessage "rb1" "b";
     AIMessage "q2" [ToolCallObj "a"; ToolCallObj "b"];
     ToolMessage "ra2" "a"; ToolMessage "rb2" "b"].
Proof.
  split; [vm_compute; reflexivity|].
  intros H. apply sublist_subseqb in H. vm_compute in H. discriminate.
Qed.

End Claims.

Module Stages.
Import Shape Final Generic Window.
Lemma tool_ids_app l1 l2 : tool_ids (l1 ++ l2) = tool_ids l1 ∪ tool_ids l2.
Proof. unfold tool_ids. by rewrite map_app, list_to_set_app_L. Qed.

Lemma tool_ids_cons c id ts : tool_ids (ToolMessage c id :: ts) = {[id]} ∪ tool_ids ts.
Proof. done. Qed.

Lemma tool_run_sub req inc ts : tool_run req inc ts -> tool_ids ts ⊆ req.
Proof. induction 1; rewrite ?tool_ids_cons; set_solver. Qed.

Lemma diff_empty_iff (R T : gset string) : T ⊆ R -> (R ∖ T = ∅ <-> T = R).
Proof.
  intros Hsub. split; intros H1.
  - apply set_eq. intros x. split; [set_solver|]. intros Hx.
    destruct (decide (x ∈ T)); [done|].
    assert (x ∈ R ∖ T) by set_solver. rewrite H1 in *. set_solver.
  - rewrite H1. apply difference_diag_L.
Qed.

Lemma tool_run_snoc req inc ts c id :
  tool_run req inc ts -> id ≠ ""%string -> id ∈ req -> id ∉ inc -> id ∉ tool_ids ts ->
  tool_run req inc (ts ++ [ToolMessage c id]).
Proof.
  induction 1 as [inc|inc c' id' ts Hne Hin Hinc Hrun IH]; intros H1 H2 H3 H4; simpl.
  - by constructor; [..|constructor].
  - rewrite tool_ids_cons in H4. constructor; [done|done|done|]. apply IH; set_solver.
Qed.

Lemma flush_ok st :
  Forall group_ok (sequences st) -> gcur_ok st ->
  Forall group_ok (sequences (flush st)) ∧ current_sequence (flush st) = [] ∧
  pending_tool_call_ids (flush st) = ∅.
Proof.
  destruct st as [seqs cur pend]. intros Hs Hc. unfold gcur_ok in Hc. simpl in *.
  destruct Hc as [[-> ->]|(c & tcs & ts & Hne & -> & Hrun & ->)]; [done|].
  unfold flush; simpl. split_and!; [|done|done].
  apply Forall_app. split; [done|]. constructor; [|constructor].
  unfold group_ok; simpl. right. exists c, tcs, ts. do 3 (split; [done|]).
  apply bool_decide_ext, diff_empty_iff, (tool_run_sub _ _ _ Hrun).
Qed.

Lemma group_step_ok st m :
  Forall group_ok (sequences st) -> gcur_ok st ->
  Forall group_ok (sequences (group_step st m)) ∧ gcur_ok (group_step st m).
Proof.
  intros Hs Hc. destruct (flush_ok st Hs Hc) as (Hs1 & Hc1 & Hp1).
  assert (Hsingle : ∀ x, has_tool_calls x = false -> group_ok ([x], true)).
  { intros x Hx. unfold group_ok. left. split; [done|eauto]. }
  destruct m as [c|c|c [|tc tcs]|c id]; unfold group_step.
  - split; [apply Forall_app; split; [done|constructor; [by apply Hsingle|constructor]]|].
    left. done.
  - split; [apply Forall_app; split; [done|constructor; [by apply Hsingle|constructor]]|].
    left. done.
  - split; [apply Forall_app; split; [done|constructor; [by apply Hsingle|constructor]]|].
    left. done.
  - split; [done|]. unfold gcur_ok. right. simpl. rewrite Hc1, Hp1.
    exists c, (tc :: tcs), []. split_and!; [done|done|constructor|]. set_solver.
  - destruct (truthy id && bool_decide (id ∈ pending_tool_call_ids st)) eqn:E.
    + apply andb_prop in E as [Ht Hin]. unfold truthy in Ht.
      apply bool_decide_eq_true in Ht, Hin.
      destruct Hc as [[_ Hp]|(c0 & tcs & ts & Hne & Hcur & Hrun & Hp)]; [set_solver|].
      split; [done|]. unfold gcur_ok. right. simpl. rewrite Hcur.
      exists c0, tcs, (ts ++ [ToolMessage c id]). split_and!; [done|done| |].
      * rewrite Hp in Hin. apply tool_run_snoc; [done|done|set_solver|set_solver|set_solver].
      * rewrite Hp, tool_ids_app, tool_ids_cons. set_solver.
    + split; [|left; done]. simpl.
      apply Forall_app. split; [done|constructor; [by apply Hsingle|constructor]].
Qed.

Lemma group_messages_ok l : Forall group_ok (group_messages l).
Proof.
  unfold group_messages.
  assert (H : ∀ st, Forall group_ok (sequences st) -> gcur_ok st ->
            Forall group_ok (sequences (foldl group_step st l)) ∧ gcur_ok (foldl group_step st l)).
  { induction l as [|m l IH]; intros st Hs Hc; simpl; [done|].
    destruct (group_step_ok st m Hs Hc). by apply IH. }
  destruct (H group_init) as [Hs Hc]; [constructor|left; done|].
  by apply flush_ok.
Qed.

Lemma select_loop_groups N T st gs :
  ∃ gs', gs' `sublist_of` gs ∧ Forall acceptable gs' ∧
    messages_to_add (ctl_state (select_loop N T st gs)) = messages_to_add st ++ concat (map fst gs').
Proof.
  revert st. induction gs as [|[seq c] gs IH]; intros st.
  - exists []. simpl. by rewrite app_nil_r.
  - cbn [select_loop]. unfold select_step.
    destruct (negb c && existsb has_tool_calls seq) eqn:E1.
    { destruct (IH st) as (gs' & ? & ? & ?). exists gs'. split_and!; [by apply sublist_cons|done|done]. }
    destruct (_ && negb _).
    { destruct (IH st) as (gs' & ? & ? & ?). exists gs'. split_and!; [by apply sublist_cons|done|done]. }
    destruct ((message_count st + length seq <=? N) && (total_tokens_approx st + seq_tokens seq <=? T)).
    + destruct (IH (SelState (messages_to_add st ++ seq) (total_tokens_approx st + seq_tokens seq)
                  (message_count st + length seq))) as (gs' & Hs & Ha & Heq).
      exists ((seq, c) :: gs'). split_and!.
      * by apply sublist_skip.
      * constructor; [|done]. unfold acceptable. simpl.
        destruct c; [by left|right]. simpl in E1. done.
      * simpl. rewrite Heq. by rewrite app_assoc.
    + exists []. split_and!; [apply sublist_nil_l|constructor|]. simpl. by rewrite app_nil_r.
Qed.

Lemma tool_messages_by_id_dom l c id :
  In (ToolMessage c id) l -> id ≠ ""%string -> id ∈ dom (tool_messages_by_id l).
Proof.
  unfold tool_messages_by_id. generalize (∅ : gmap string message) as mp.
  assert (Hmono : ∀ l (mp : gmap string message) (k : string), k ∈ dom mp -> k ∈ dom (foldl (fun mp m =>
             match m with
             | ToolMessage _ id => if truthy id then <[id := m]> mp else mp
             | _ => mp
             end) mp l)).
  { clear. induction l as [|m l IH]; intros mp k Hk; simpl; [done|].
    apply IH. destruct m; try done. destruct (truthy _); [|done].
    rewrite dom_insert_L. set_solver. }
  induction l as [|m l IH]; intros mp Hin Hne; [done|].
  destruct Hin as [->|Hin]; simpl.
  - apply Hmono. unfold truthy. rewrite bool_decide_eq_true_2 by done.
    rewrite dom_insert_L. set_solver.
  - by apply IH.
Qed.

Lemma id_set_truthy f tcs id : id ∈ id_set f tcs -> id ≠ ""%string.
Proof.
  unfold id_set. rewrite elem_of_list_to_set, list_elem_of_In, filter_In.
  intros [_ Ht]. unfold truthy in Ht. by apply bool_decide_eq_true in Ht.
Qed.



(** The ids of a block of a valid window are all keys, when every
    truthy tool id of the window is. *)
Lemma block_keys keys tcs ts :
  tool_run (required_ids tcs) ∅ ts -> tool_ids ts = required_ids tcs ->
  (∀ c id, In (ToolMessage c id) ts -> id ≠ ""%string -> id ∈ keys) ->
  required_ids tcs ⊆ keys.
Proof.
  intros Hrun Hids Hk id Hid. rewrite <- Hids in Hid.
  destruct (tool_run_ids _ _ _ _ Hrun Hid) as [c Hc].
  apply (Hk c); [done|]. rewrite Hids in Hid. by apply id_set_truthy in Hid.
Qed.


Lemma final_window keys l :
  window_ok l -> (∀ c id, In (ToolMessage c id) l -> id ≠ ""%string -> id ∈ keys) ->
  final_loop keys FNormal l = l.
Proof.
  induction 1 as [|m l Hp Hl IH|c tcs ts l Hne Hemp Hrun Hids Hl IH]; intros Hk; [done| |].
  - cbn [final_loop final_step]. rewrite final_normal_plain by done.
    simpl. rewrite IH; [done|]. intros c id Hin. apply (Hk c). by right.
  - destruct tcs as [|tc tcs]; [done|].
    assert (Hsub : required_ids (tc :: tcs) ⊆ keys).
    { apply (block_keys _ _ ts Hrun Hids). intros c' id Hin. apply (Hk c').
      right. apply in_or_app. by left. }
    assert (Hsz : 0 < size (required_ids (tc :: tcs))).
    { destruct (decide (size (required_ids (tc :: tcs)) = 0)) as [H0|H0]; [|lia].
      apply size_empty_inv in H0. exfalso. apply Hemp. by apply leibniz_equiv. }
    pose proof (window_ok_head _ Hl) as Hhead.
    cbn [final_loop final_step final_normal app].
    rewrite !bool_decide_eq_true_2 by done. simpl.
    rewrite (found_run _ _ _ _ Hrun Hhead), bool_decide_eq_true_2 by done. simpl.
    rewrite (final_including_run _ _ _ _ _ Hrun Hhead).
    rewrite IH; [done|]. intros c' id Hin. apply (Hk c'). right. apply in_or_app. by right.
Qed.

Lemma select_loop_zero T st gs :
  messages_to_add st = [] -> messages_to_add (ctl_state (select_loop 0 T st gs)) = [].
Proof.
  revert st. induction gs as [|[seq c] gs IH]; intros st Hst; [done|].
  cbn [select_loop]. unfold select_step.
  destruct (negb c && _); [by apply IH|]. destruct (_ && negb _); [by apply IH|].
  destruct ((message_count st + length seq <=? 0) && _) eqn:E; [|done].
  apply andb_prop in E as [E _]. apply Nat.leb_le in E.
  destruct seq; [|simpl in E; lia]. apply IH. simpl. by rewrite Hst.
Qed.

End Stages.

Module ResearcherFilter.
Import Shape Generic Stages.
Lemma list_max_cons j l : list_max (j :: l) = Nat.max j (list_max l).
Proof. reflexivity. Qed.

Lemma scan_split req j l :
  (researcher_scan req j l).2 ≠ [] ->
  ∃ pre post, l = pre ++ post ∧ Forall (fun m => is_tool m = true) pre ∧
    map snd (researcher_scan req j l).2 `sublist_of` pre ∧
    j + length pre = S (list_max (map fst (researcher_scan req j l).2)).
Proof.
  revert j. induction l as [|m l IH]; intros j Hne; [done|].
  destruct m as [c|c|c tcs|c id]; [done|done|done|].
  cbn [researcher_scan] in *. specialize (IH (S j)).
  destruct (researcher_scan req (S j) l) as [f idx] eqn:E. simpl in *.
  case_bool_decide; simpl in *.
  - destruct idx as [|p idx'].
    + exists [ToolMessage c id], l. simpl. split_and!; [done|by constructor|done|lia].
    + destruct IH as (pre & post & -> & Ht & Hs & Hl); [done|].
      exists (ToolMessage c id :: pre), post. simpl. split_and!; [done|by constructor|by apply sublist_skip|].
      simpl in Hl. lia.
  - destruct IH as (pre & post & -> & Ht & Hs & Hl); [done|].
    exists (ToolMessage c id :: pre), post. simpl. split_and!; [done|by constructor|by apply sublist_cons|lia].
Qed.

Lemma scan_found req j l :
  Forall (fun m => is_tool m = true) (map snd (researcher_scan req j l).2) ∧
  tool_ids (map snd (researcher_scan req j l).2) = (researcher_scan req j l).1.
Proof.
  revert j. induction l as [|m l IH]; intros j; [done|].
  destruct m as [c|c|c tcs|c id]; try done.
  cbn [researcher_scan]. specialize (IH (S j)).
  destruct (researcher_scan req (S j) l) as [f idx] eqn:E. simpl in *.
  destruct IH as [Ht Hi].
  case_bool_decide; simpl; [|done]. split; [by constructor|].
  unfold tool_ids in *. simpl. by rewrite Hi.
Qed.

Lemma loop_skip pre post j s :
  (Z.of_nat (j + length pre) <= s + 1)%Z ->
  researcher_loop j s (pre ++ post) = researcher_loop (j + length pre) s post.
Proof.
  revert j. induction pre as [|m pre IH]; intros j Hj; simpl in *; [by rewrite Nat.add_0_r|].
  rewrite (proj2 (Z.leb_le _ _)) by lia. rewrite IH by lia. f_equal. lia.
Qed.

(** One turn of the outer loop, when no skip is pending. *)
Lemma loop_step i s m tl :
  (s < Z.of_nat i)%Z ->
  (researcher_loop i s (m :: tl) = m :: researcher_loop (S i) s tl ∧
   (has_tool_calls m = false ∨ ∃ c tcs, m = AIMessage c tcs ∧ id_set grouping_call_id tcs = ∅)) ∨
  (∃ c tcs pre post ts s' (keep : bool),
     m = AIMessage c tcs ∧ tcs ≠ [] ∧ tl = pre ++ post ∧
     Forall (fun x => is_tool x = true) pre ∧ ts `sublist_of` pre ∧
     (keep = true -> tool_ids ts = id_set grouping_call_id tcs) ∧
     (s' < Z.of_nat (S i + length pre))%Z ∧
     researcher_loop i s (m :: tl) = (if keep then m :: ts else []) ++ researcher_loop (S i + length pre) s' post).
Proof.
  intros Hs. cbn [researcher_loop].
  rewrite (proj2 (Z.leb_gt _ _)) by lia.
  destruct m as [c|c|c [|tc tcs]|c id]; try (left; split; [done|by left]).
  case_bool_decide as Hemp.
  { left. split; [done|right; eauto]. }
  right. pose proof (scan_found (id_set grouping_call_id (tc :: tcs)) (S i) tl) as [Ht Hids].
  pose proof (scan_split (id_set grouping_call_id (tc :: tcs)) (S i) tl) as Hsp.
  destruct (researcher_scan _ (S i) tl) as [f idx] eqn:E. simpl in *.
  destruct idx as [|p idx'].
  - exists c, (tc :: tcs), [], tl, [], s, false.
    simpl in Hids. subst f.
    split_and!; [done|done|done|constructor|constructor|done|simpl; lia|].
    rewrite bool_decide_eq_false_2; [simpl; by rewrite Nat.add_0_r|].
    intros H. apply Hemp. by rewrite <- H.
  - destruct Hsp as (pre & post & -> & Hpre & Hsub & Hlen); [done|].
    exists c, (tc :: tcs), pre, post, (map snd (p :: idx')),
      (Z.of_nat (list_max (map fst (p :: idx')))), (bool_decide (f = id_set grouping_call_id (tc :: tcs))).
    split_and!; try done.
    + intros Hk. apply bool_decide_eq_true in Hk. by rewrite Hids.
    + lia.
    + rewrite loop_skip by lia. by case_bool_decide.
Qed.

Lemma filter_tools l : Forall (fun x => is_tool x = true) l -> List.filter is_plain_turn l = [].
Proof. induction 1 as [|x l Hx Hl IH]; [done|]. destruct x; simpl in *; done. Qed.

Lemma plain_filter_app l1 l2 :
  List.filter is_plain_turn (l1 ++ l2) = List.filter is_plain_turn l1 ++ List.filter is_plain_turn l2.
Proof. induction l1 as [|x l1 IH]; [done|]. simpl. destruct (is_plain_turn x); simpl; by rewrite IH. Qed.

Lemma loop_sublist n : ∀ l, length l ≤ n -> ∀ i s, (s < Z.of_nat i)%Z ->
  researcher_loop i s l `sublist_of` l.
Proof.
  induction n as [|n IH]; intros [|m tl] Hl i s Hs; [constructor|simpl in Hl; lia|constructor|].
  destruct (loop_step i s m tl Hs)
    as [[Hr _]|(c & tcs & pre & post & ts & s' & keep & -> & _ & -> & Hpre & Hsub & _ & Hs' & Hr)];
    rewrite Hr.
  - apply sublist_skip, IH; [simpl in Hl; lia|lia].
  - simpl in Hl. rewrite length_app in Hl. destruct keep; simpl.
    + apply sublist_skip, sublist_app; [done|]. apply IH; [lia|done].
    + apply sublist_cons. rewrite <- (app_nil_l (researcher_loop _ _ _)).
      apply sublist_app; [apply sublist_nil_l|]. apply IH; [lia|done].
Qed.

Lemma loop_plain n : ∀ l, length l ≤ n -> ∀ i s, (s < Z.of_nat i)%Z ->
  List.filter is_plain_turn (researcher_loop i s l) = List.filter is_plain_turn l.
Proof.
  induction n as [|n IH]; intros [|m tl] Hl i s Hs; try done; [simpl in Hl; lia|].
  destruct (loop_step i s m tl Hs)
    as [[Hr _]|(c & tcs & pre & post & ts & s' & keep & -> & Hne & -> & Hpre & Hsub & _ & Hs' & Hr)];
    rewrite Hr.
  - simpl. rewrite IH by (simpl in Hl; lia). done.
  - simpl in Hl. rewrite length_app in Hl.
    assert (Hts : Forall (fun x => is_tool x = true) ts) by (eapply Forall_sublist_of; eauto).
    destruct tcs as [|tc tcs]; [done|].
    cbn [List.filter is_plain_turn]. rewrite !plain_filter_app, (filter_tools pre Hpre).
    destruct keep; simpl; [rewrite (filter_tools ts Hts)|]; simpl; apply IH; lia.
Qed.

Lemma tool_prefix_tools ts r :
  Forall (fun x => is_tool x = true) ts -> tool_prefix (ts ++ r) = ts ++ tool_prefix r.
Proof. induction 1 as [|x ts Hx Hts IH]; [done|]. destruct x; try done. simpl. by rewrite IH. Qed.


Lemma loop_answered n : ∀ l, length l ≤ n -> ∀ i s, (s < Z.of_nat i)%Z ->
  ∀ pre c tcs post, researcher_loop i s l = pre ++ AIMessage c tcs :: post ->
  id_set grouping_call_id tcs ⊆ tool_ids (tool_prefix post).
Proof.
  induction n as [|n IH]; intros [|m tl] Hl i s Hs pre c0 tcs0 post Heq;
    try (by destruct pre); [simpl in Hl; lia|].
  destruct (loop_step i s m tl Hs)
    as [[Hr Hm]|(c & tcs & pre' & post' & ts & s' & keep & -> & Hne & -> & Hpre & Hsub & Hk & Hs' & Hr)];
    rewrite Hr in Heq.
  - destruct pre as [|x pre]; simpl in Heq; injection Heq as Hx Heq.
    + subst m. destruct Hm as [Hm|(c & tcs & Hc & Hemp)].
      * destruct tcs0; [|done]. unfold id_set. simpl. set_solver.
      * injection Hc as -> ->. rewrite Hemp. set_solver.
    + simpl in Hl. apply (IH tl ltac:(lia) (S i) s ltac:(lia) pre c0 tcs0 post Heq).
  - simpl in Hl. rewrite length_app in Hl.
    assert (Hts : Forall (fun x => is_tool x = true) ts) by (eapply Forall_sublist_of; eauto).
    destruct keep.
    + specialize (Hk eq_refl). destruct pre as [|x pre]; simpl in Heq.
      * injection Heq as Hc Htc Hpost. subst. rewrite tool_prefix_tools, tool_ids_app by done.
        rewrite Hk. set_solver.
      * injection Heq as Hx Heq. apply app_eq_app in Heq as (k & [[-> Hk2]|[-> Hk2]]).
        -- destruct k as [|y k]; simpl in Hk2.
           ++ apply (IH post' ltac:(lia) _ _ Hs' [] c0 tcs0 post). simpl. by rewrite Hk2.
           ++ injection Hk2 as Hy _. subst y. apply Forall_app in Hts as [_ Hts].
              inversion Hts; subst. done.
        -- apply (IH post' ltac:(lia) _ _ Hs' k c0 tcs0 post). exact Hk2.
    + simpl in Heq. apply (IH post' ltac:(lia) _ _ Hs' pre c0 tcs0 post). done.
Qed.

Lemma tool_run_tools req inc ts : tool_run req inc ts -> Forall (fun x => is_tool x = true) ts.
Proof. induction 1; by constructor. Qed.

Lemma scan_run req inc ts l j :
  tool_run req inc ts -> starts_with_tool l = false ->
  (researcher_scan req j (ts ++ l)).1 = tool_ids ts ∧
  map snd (researcher_scan req j (ts ++ l)).2 = ts ∧
  map fst (researcher_scan req j (ts ++ l)).2 = seq j (length ts).
Proof.
  intros Hrun Hl. revert j. induction Hrun as [inc|inc c id ts Hne Hin Hinc Hrun IH]; intros j.
  - destruct l as [|[] l]; done.
  - cbn [app researcher_scan]. specialize (IH (S j)).
    destruct (researcher_scan req (S j) (ts ++ l)) as [f idx].
    rewrite bool_decide_eq_true_2 by done. simpl in *. destruct IH as (Hf & Hs & Hfs).
    split_and!; [unfold tool_ids in *; simpl; by rewrite <- Hf|by rewrite Hs|by rewrite Hfs].
Qed.

Lemma list_max_seq j n : list_max (seq j (S n)) = j + n.
Proof.
  revert j. induction n as [|n IH]; intros j; [simpl; lia|].
  change (list_max (j :: seq (S j) (S n)) = j + S n). rewrite list_max_cons, IH. lia.
Qed.

Lemma loop_tools ts l j s :
  Forall (fun x => is_tool x = true) ts -> (s < Z.of_nat j)%Z ->
  researcher_loop j s (ts ++ l) = ts ++ researcher_loop (j + length ts) s l.
Proof.
  intros Hts. revert j. induction Hts as [|x ts Hx Hts IH]; intros j Hj; simpl.
  - by rewrite Nat.add_0_r.
  - rewrite (proj2 (Z.leb_gt _ _)) by lia. destruct x; try done.
    rewrite (IH (S j)) by lia. by rewrite Nat.add_succ_r.
Qed.

Lemma id_set_obj tcs : forallb is_obj_call tcs = true -> id_set grouping_call_id tcs = required_ids tcs.
Proof.
  intros H. unfold required_ids, id_set. f_equal. f_equal.
  induction tcs as [|[] tcs IH]; simpl in *; [done| |done]. by rewrite IH.
Qed.

Lemma id_set_dict tcs :
  forallb (fun tc => negb (is_obj_call tc)) tcs = true -> id_set grouping_call_id tcs = ∅.
Proof. unfold id_set. induction tcs as [|[] tcs IH]; simpl; [done|done|apply IH]. Qed.

Lemma loop_window l :
  window_ok l -> Forall (fun m => uniform_calls m = true) l ->
  ∀ i s, (s < Z.of_nat i)%Z -> researcher_loop i s l = l.
Proof.
  induction 1 as [|m l Hp Hl IH|c tcs ts l Hne Hemp Hrun Hids Hl IH]; intros Hu i s Hs; [done| |].
  - inversion Hu; subst. cbn [researcher_loop]. rewrite (proj2 (Z.leb_gt _ _)) by lia.
    destruct m as [c|c|c [|tc tcs]|c id]; try done; rewrite IH by (done || lia); done.
  - inversion Hu as [|? ? Hu0 Hu']; subst. apply Forall_app in Hu' as [_ Hu'].
    pose proof (tool_run_tools _ _ _ Hrun) as Hts.
    pose proof (window_ok_head _ Hl) as Hhead.
    destruct tcs as [|tc tcs]; [done|].
    cbn [researcher_loop]. rewrite (proj2 (Z.leb_gt _ _)) by lia.
    cbn [uniform_calls] in Hu0. apply orb_true_iff in Hu0 as [Hobj|Hdict].
    + rewrite (id_set_obj _ Hobj). rewrite bool_decide_eq_false_2 by done.
      pose proof (scan_run (required_ids (tc :: tcs)) ∅ ts l (S i) Hrun Hhead) as (Hf & Hsnd & Hfst).
      destruct (researcher_scan _ (S i) (ts ++ l)) as [f idx]. simpl in *. subst f.
      destruct ts as [|t ts']; [by rewrite <- Hids in Hemp|].
      destruct idx as [|p idx']; [done|].
      rewrite Hfst. cbn [length]. rewrite list_max_seq, Hsnd, bool_decide_eq_true_2 by done.
      rewrite loop_skip by (simpl; lia). rewrite IH by (done || (simpl; lia)). done.
    + rewrite (id_set_dict _ Hdict), bool_decide_eq_true_2 by done.
      rewrite loop_tools by (done || lia). rewrite IH by (done || lia). done.
Qed.

End ResearcherFilter.

Module Extras.
Import Shape Final Generic Stages ResearcherFilter.


Lemma required_ab : required_ids [ToolCallObj "a"; ToolCallObj "b"] = {["a"; "b"]}.
Proof. vm_compute. reflexivity. Qed.


(** X1: the grouping stage (lines 58-116) splits the filtered history
    into consecutive groups: read in order, the groups give back the
    history exactly, with nothing lost, added or moved. *)
Theorem grouping_partition l : concat (map fst (group_messages l)) = l.
Proof. apply group_messages_concat. Qed.

(** X2: every group formed by the grouping stage is either a single
    complete turn without tool calls, or an assistant turn with tool
    calls followed by results with distinct ids, all among the ids the
    turn exposes as attributes; such a group is marked complete exactly
    when each of these ids has its result. *)
Theorem grouping_groups_ok l : Forall group_ok (group_messages l).
Proof. apply group_messages_ok. Qed.

(** X3: the selection stage (lines 118-161) takes whole groups only: what
    it hands on is the reverse of the concatenation of some groups,
    taken newest first in the order of the backward scan, none of them
    an incomplete group holding a tool call. *)
Theorem selection_whole_groups msgs sysopt N T :
  ∃ gs, gs `sublist_of` rev (group_messages (List.filter (fun m => negb (is_system m)) msgs)) ∧
        Forall acceptable gs ∧
        selected msgs sysopt N T = rev (concat (map fst gs)).
Proof.
  destruct (select_loop_groups N T (SelState [] (system_tokens sysopt) 0)
              (rev (group_messages (List.filter (fun m => negb (is_system m)) msgs))))
    as (gs & Hs & Ha & Heq).
  exists gs. split_and!; [done|done|]. unfold selected. by rewrite Heq.
Qed.

(** X4: the validation stage (lines 163-298) only outputs plain turns,
    assistant turns whose tool calls carry no id, and assistant turns
    directly followed by results with distinct ids, all among the
    turn's ids; orphan results never get through. *)
Theorem validation_shape l : validated_shape (validate l).
Proof. apply validate_shape. Qed.





(** X7: on anything the validation stage can output, the final safety
    pass yields a valid window, and running it a second time changes
    nothing. *)
Theorem final_pass_repairs_validated l :
  validated_shape l -> window_ok (final_clean l) ∧ final_clean (final_clean l) = final_clean l.
Proof.
  intros Hv. pose proof (final_clean_shape l Hv) as Hw.
  split; [done|]. apply final_window; [done|]. intros c id Hin Hne.
  by apply (tool_messages_by_id_dom _ c).
Qed.

Lemma final_pass_repairs_validated_witness :
  validated_shape [AIMessage "x" [ToolCallObj "a"; ToolCallObj "b"]; ToolMessage "r" "a"] ∧
  window_ok (final_clean [AIMessage "x" [ToolCallObj "a"; ToolCallObj "b"]; ToolMessage "r" "a"]) ∧
  final_clean [AIMessage "x" [ToolCallObj "a"; ToolCallObj "b"]; ToolMessage "r" "a"] = [].
Proof.
  assert (Hv : validated_shape [AIMessage "x" [ToolCallObj "a"; ToolCallObj "b"]; ToolMessage "r" "a"]).
  { apply (vs_block "x" [ToolCallObj "a"; ToolCallObj "b"] [ToolMessage "r" "a"] []);
      rewrite ?required_ab.
    - done.
    - set_solver.
    - constructor; [done|set_solver|set_solver|constructor].
    - constructor. }
  split_and!; [exact Hv|exact (proj1 (final_pass_repairs_validated _ Hv))|].
  vm_compute. reflexivity.
Defined.

(** X8: [truncate_messages] makes up no message: everything it returns
    is the system message it was given or a message of its input. *)
Theorem truncate_no_fabrication msgs sysopt N T m :
  In m (truncate_messages msgs sysopt N T) -> In m (system_prefix sysopt) ∨ In m msgs.
Proof.
  destruct (truncate_decomp msgs sysopt N T) as (tail & -> & Hsub).
  intros Hin. apply in_app_or in Hin as [Hin|Hin]; [by left|right].
  assert (Hf : Forall (fun x => In x msgs) (selected msgs sysopt N T)).
  { apply selected_Forall, List.Forall_forall. intros x Hx. by apply filter_In in Hx as [Hx _]. }
  pose proof (Forall_sublist_of _ _ _ Hsub Hf) as Ht.
  rewrite List.Forall_forall in Ht. by apply Ht.
Qed.

Lemma truncate_no_fabrication_witness :
  In (HumanMessage "q")
     (truncate_messages [SystemMessage "old"; HumanMessage "q"] (Some "S") 10 100000) ∧
  (In (HumanMessage "q") (system_prefix (Some "S")) ∨
   In (HumanMessage "q") [SystemMessage "old"; HumanMessage "q"]).
Proof.
  assert (Hin : In (HumanMessage "q")
                  (truncate_messages [SystemMessage "old"; HumanMessage "q"] (Some "S") 10 100000)).
  { vm_compute. right. left. reflexivity. }
  split; [exact Hin|exact (truncate_no_fabrication _ _ _ _ _ Hin)].
Defined.

(** X9: with [max_messages = 0] the function returns the system message
    alone (or nothing without one), whatever the history and the token
    budget. *)
Theorem truncate_zero_messages msgs sysopt T :
  truncate_messages msgs sysopt 0 T = system_prefix sysopt.
Proof.
  assert (Hs : selected msgs sysopt 0 T = []).
  { unfold selected. by rewrite select_loop_zero. }
  unfold truncate_messages. fold (system_tokens sysopt).
  destruct (List.filter _ msgs) as [|m0 fl] eqn:Ef; [by destruct sysopt|].
  rewrite <- Ef. fold (selected msgs sysopt 0 T). rewrite Hs.
  by destruct sysopt.
Qed.

(** X10: a history made of system messages only, the empty history
    included, yields the given system message alone (lines 53-56). *)
Theorem truncate_only_system msgs sysopt N T :
  forallb is_system msgs = true -> truncate_messages msgs sysopt N T = system_prefix sysopt.
Proof.
  intros H. assert (Hf : List.filter (fun m => negb (is_system m)) msgs = []).
  { induction msgs as [|m msgs IH]; [done|]. simpl in *.
    apply andb_prop in H as [-> H]. by apply IH. }
  unfold truncate_messages. rewrite Hf. by destruct sysopt.
Qed.

Lemma truncate_only_system_witness :
  forallb is_system [SystemMessage "a"; SystemMessage "b"] = true ∧
  truncate_messages [SystemMessage "a"; SystemMessage "b"] (Some "S") 10 100000 = [SystemMessage "S"].
Proof.
  assert (H : forallb is_system [SystemMessage "a"; SystemMessage "b"] = true) by reflexivity.
  split; [exact H|exact (truncate_only_system _ (Some "S") 10 100000 H)].
Defined.

(** X11: the researcher's filter (src/researcher.py, lines 185-219)
    only removes messages: its output is a subsequence of its input. *)
Theorem researcher_filter_sublist l : researcher_safe_messages l `sublist_of` l.
Proof. apply (loop_sublist (length l)); [done|lia]. Qed.

(** X12: the researcher's filter never removes a system, human or plain
    assistant turn; it only drops tool-call turns and tool results. *)
Theorem researcher_filter_keeps_plain l :
  List.filter is_plain_turn (researcher_safe_messages l) = List.filter is_plain_turn l.
Proof. apply (loop_plain (length l)); [done|lia]. Qed.

(** X13: in the output of the researcher's filter, each assistant turn is
    directly followed by tool results for all the ids its tool calls
    expose as attributes. *)
Theorem researcher_filter_answered l pre c tcs post :
  researcher_safe_messages l = pre ++ AIMessage c tcs :: post ->
  id_set grouping_call_id tcs ⊆ tool_ids (tool_prefix post).
Proof. apply (loop_answered (length l) l ltac:(done) 0 (-1)%Z ltac:(lia)). Qed.

Lemma researcher_filter_answered_witness :
  researcher_safe_messages [HumanMessage "q"; AIMessage "x" [ToolCallObj "a"]; ToolMessage "r" "a"]
    = [HumanMessage "q"] ++ AIMessage "x" [ToolCallObj "a"] :: [ToolMessage "r" "a"] ∧
  id_set grouping_call_id [ToolCallObj "a"] ⊆ tool_ids (tool_prefix [ToolMessage "r" "a"]).
Proof.
  assert (H : researcher_safe_messages [HumanMessage "q"; AIMessage "x" [ToolCallObj "a"]; ToolMessage "r" "a"]
                = [HumanMessage "q"] ++ AIMessage "x" [ToolCallObj "a"] :: [ToolMessage "r" "a"])
    by (vm_compute; reflexivity).
  split; [exact H|exact (researcher_filter_answered _ _ _ _ _ H)].
Defined.

(** X14: when every assistant turn's tool calls are all objects or all
    mappings, the researcher's filter changes nothing: the model receives
    exactly what [truncate_messages] returned. *)
Theorem researcher_filter_redundant msgs s :
  forallb uniform_calls msgs = true ->
  researcher_messages msgs s = truncate_messages msgs (Some s) 10 100000.
Proof.
  intros Hu. unfold researcher_messages, researcher_safe_messages.
  apply loop_window; [apply Pipeline.truncate_window_ok| |lia].
  destruct (truncate_decomp msgs (Some s) 10 100000) as (tail & -> & Hsub).
  constructor; [done|]. eapply Forall_sublist_of; [exact Hsub|].
  apply selected_Forall, List.Forall_forall. intros x Hx.
  apply filter_In in Hx as [Hx _]. rewrite forallb_forall in Hu. by apply Hu.
Qed.

Lemma researcher_filter_redundant_witness :
  forallb uniform_calls [HumanMessage "q"; AIMessage "x" [ToolCallObj "a"]; ToolMessage "r" "a"] = true ∧
  researcher_messages [HumanMessage "q"; AIMessage "x" [ToolCallObj "a"]; ToolMessage "r" "a"] "S"
  = truncate_messages [HumanMessage "q"; AIMessage "x" [ToolCallObj "a"]; ToolMessage "r" "a"]
      (Some "S") 10 100000.
Proof.
  assert (H : forallb uniform_calls
                [HumanMessage "q"; AIMessage "x" [ToolCallObj "a"]; ToolMessage "r" "a"] = true)
    by reflexivity.
  split; [exact H|exact (researcher_filter_redundant _ "S" H)].
Defined.

End Extras.
